(** * inavora backend: sliding-window rate limiter and TTL cache

    A shallow embedding of two utilities of the Express backend:

    - the rate-limiter middleware factory [createRateLimiter] together with
      the module-level map [requestCounts] that every limiter instance
      shares, and the hourly cleanup of that map;
    - the in-memory [CacheService] class (get / set / has / delete / clear /
      getOrSet / cleanExpired / getStats);
    - the response-cache middleware of [cache.js] in front of that class;
    - the rule-driven validation middleware, its validators and its common
      rules.

    Conventions of the embedding.

    - JavaScript numbers that the code handles here (epoch milliseconds,
      quotas, window lengths, counters) are integers and are modelled by [Z].
      The one place where a non-integer can appear, the division by 1000
      under [Math.ceil], is modelled by integer ceiling division; the one
      place where [NaN] can appear ([validRequests[0]] of an empty array) is
      modelled by the [NaN] constructor of [JsNumber].
    - A JavaScript [Map] with string keys is a [gmap string _].  The loops
      over the entries of a map (the hourly cleanup of the limiter,
      [cleanExpired], [getStats]) are folds over the list of its entries;
      what they compute does not depend on the order of the entries.
    - Every call of [Date.now()] in the source is an explicit [Z] argument of
      the embedded function, one argument per call site.
    - A number is rendered in a string by its decimal digits below 1e21 in
      magnitude and in exponent notation from there on, as JavaScript does;
      the digits are those of the exact integer.
    - The Express response object is the record [Response]; the middleware
      returns the updated map, the updated response and whether [next()] was
      called.  The one exception that the limiter can throw, the
      [RangeError] of [toISOString] for a reset instant outside the range
      of [Date], is part of the result of the closure [invoke]; [middleware]
      is the run of the same statements in which the instant is rendered,
      and the two agree wherever no exception is thrown. *)

From stdpp Require Import gmap strings list fin_maps pretty sorting.

Local Open Scope Z_scope.

(** ** JavaScript values *)

Module Js.

Inductive JsNumber : Type :=
| Int (z : Z)
| NaN.

#[local] Unset Elimination Schemes.
Inductive JsValue : Type :=
| VUndefined
| VNull
| VBool (b : bool)
| VNumber (n : JsNumber)
| VString (s : string)
| VArray (items : list JsValue)
| VObject (fields : list (string * JsValue)).
#[local] Set Elimination Schemes.

(** [x !== null] *)
Definition isNull (v : JsValue) : bool :=
  match v with VNull => true | _ => false end.

(** The digits of a number without the zeros at their end. *)
Fixpoint dropTrailingZeros (digits : string) : string :=
  match digits with
  | EmptyString => EmptyString
  | String d rest =>
      match dropTrailingZeros rest with
      | EmptyString =>
          if String.eqb (String d EmptyString) "0" then EmptyString
          else String d EmptyString
      | kept => String d kept
      end
  end.

(** Exponent notation of a positive integer given by its decimal digits:
    the first digit, the other significant digits after a point, and the
    power of ten. *)
Definition exponential (digits : string) : string :=
  match digits with
  | EmptyString => EmptyString
  | String d rest =>
      String d
        (match dropTrailingZeros rest with
         | EmptyString => EmptyString
         | fraction => "." +:+ fraction
         end)
      +:+ "e+" +:+ pretty (String.length rest)
  end.

(** Number-to-string conversion as performed by a template literal: plain
    decimal digits below 1e21 in magnitude, exponent notation from there
    on.  The numbers of the model being exact integers, the digits of the
    exponent notation are those of the integer. *)
Definition numberToString (n : JsNumber) : string :=
  match n with
  | Int z =>
      if bool_decide (Z.abs z < 1000000000000000000000) then pretty z
      else (if bool_decide (z < 0) then "-" else "")
           +:+ exponential (pretty (Z.abs z))
  | NaN => "NaN"
  end.

(** [Math.ceil(x / 1000)] and friends on an integer numerator and a
    positive integer denominator. *)
Definition ceilDiv (x d : Z) : Z := - ((- x) `div` d).

(** Truthiness of an optional string property ([undefined] and the empty
    string are falsy). *)
Definition truthy (o : option string) : bool :=
  match o with
  | Some s => negb (String.eqb s "")
  | None => false
  end.

(** How a call completes: normally with a value, or by throwing (for an
    awaited promise: by rejecting). *)
Inductive Completion (A : Type) : Type :=
| Normal (a : A)
| Throw (error : JsValue).
Global Arguments Normal {A} a.
Global Arguments Throw {A} error.

End Js.

Import Js.

(** ** The rate limiter *)

Module rateLimiter.

(** A value handed to [res.setHeader]: a number, or the string produced by
    [new Date(epochMs).toISOString()], kept symbolic in the instant it
    renders. *)
Inductive HeaderValue : Type :=
| HNumber (n : Z)
| HIsoString (epochMs : Z).

Record Response : Type := mkResponse {
  statusCode : Z;
  headers : gmap string HeaderValue;
  body : option JsValue
}.

(** A response on which no handler has acted yet. *)
Definition freshResponse : Response :=
  {| statusCode := 200; headers := ∅; body := None |}.

Definition status (code : Z) (res : Response) : Response :=
  {| statusCode := code; headers := headers res; body := body res |}.

Definition json (payload : JsValue) (res : Response) : Response :=
  {| statusCode := statusCode res; headers := headers res;
     body := Some payload |}.

Definition setHeader (name : string) (v : HeaderValue) (res : Response)
  : Response :=
  {| statusCode := statusCode res; headers := <[name := v]> (headers res);
     body := body res |}.

(** The properties of the request that the limiter reads. *)
Record Request : Type := mkRequest {
  userId : option string;
  ip : option string;
  remoteAddress : option string
}.

(** What one run of the middleware leaves behind. *)
Record Turn : Type := mkTurn {
  requestCounts : gmap string (list Z);
  response : Response;
  nextCalled : bool
}.

(** How one call of the middleware ends: what it leaves behind, and the
    exception it throws if it throws one. *)
Record Run : Type := mkRun {
  turn : Turn;
  thrown : option JsValue
}.

(** [new Date(epochMs).toISOString()] renders the time values up to
    8.64e15 milliseconds either side of the epoch and throws a
    [RangeError] for all others. *)
Definition maxTimeValue : Z := 8640000000000000.

Definition isTimeValue (epochMs : Z) : bool :=
  bool_decide (- maxTimeValue ≤ epochMs ≤ maxTimeValue).

Definition rangeError : JsValue :=
  VObject [ ("name", VString "RangeError");
            ("message", VString "Invalid time value") ].

Definition toISOString (epochMs : Z) : Completion HeaderValue :=
  if isTimeValue epochMs then Normal (HIsoString epochMs)
  else Throw rangeError.

(** The [options] argument of [createRateLimiter]; an absent property
    takes the default of the destructuring pattern. *)
Record Options : Type := mkOptions {
  opt_windowMs : option Z;
  opt_maxRequests : option Z;
  opt_message : option string;
  opt_useUserId : option bool
}.

Section middleware.
(** The variables captured by the returned closure. *)
Variables (windowMs maxRequests : Z) (message : string) (useUserId : bool).

Definition clientId (req : Request) : string :=
  if useUserId && truthy (userId req)
  then "user_" +:+ default "" (userId req)
  else if truthy (ip req) then default "" (ip req)
  else if truthy (remoteAddress req) then default "" (remoteAddress req)
  else "unknown".

Definition windowStart (now : Z) : Z := now - windowMs.

(** The client's in-window timestamps: the array that
    [requests.filter(timestamp => timestamp > windowStart)] yields, a
    missing entry counting as the empty array it is created as. *)
Definition validRequests (counts : gmap string (list Z)) (cid : string)
    (now : Z) : list Z :=
  filter (λ timestamp, timestamp > windowStart now)
    (default [] (counts !! cid)).

Definition retryAfter (valid : list Z) (now : Z) : JsNumber :=
  match head valid with
  | Some oldest => Int (ceilDiv (oldest + windowMs - now) 1000)
  | None => NaN
  end.

Definition rejectionBody (valid : list Z) (now : Z) : JsValue :=
  VObject [ ("success", VBool false);
            ("error", VString message);
            ("retryAfter",
             VString (numberToString (retryAfter valid now) +:+ " seconds")) ].

(** The run of the closure in which the reset instant is rendered: what
    the call leaves behind whenever it does not throw. *)
Definition middleware (req : Request) (now : Z)
    (counts : gmap string (list Z)) (res : Response) : Turn :=
  let cid := clientId req in
  let counts1 :=
    if decide (is_Some (counts !! cid)) then counts
    else <[cid := []]> counts in
  let requests := default [] (counts1 !! cid) in
  let valid := filter (λ timestamp, timestamp > windowStart now) requests in
  let counts2 := <[cid := valid]> counts1 in
  if bool_decide (Z.of_nat (length valid) >= maxRequests) then
    {| requestCounts := counts2;
       response := json (rejectionBody valid now) (status 429 res);
       nextCalled := false |}
  else
    (* [validRequests.push(now)] mutates the array stored in the map *)
    let valid' := valid ++ [now] in
    let counts3 := <[cid := valid']> counts2 in
    let res1 := setHeader "X-RateLimit-Limit" (HNumber maxRequests) res in
    let res2 :=
      setHeader "X-RateLimit-Remaining"
        (HNumber (Z.max 0 (maxRequests - Z.of_nat (length valid')))) res1 in
    let res3 :=
      setHeader "X-RateLimit-Reset" (HIsoString (now + windowMs)) res2 in
    {| requestCounts := counts3; response := res3; nextCalled := true |}.

(** The closure, statement by statement, with the exception that
    [toISOString] throws when the reset instant is no time value: by then
    the timestamp is recorded and two headers are set, and [next] is not
    reached. *)
Definition invoke (req : Request) (now : Z)
    (counts : gmap string (list Z)) (res : Response) : Run :=
  let cid := clientId req in
  let counts1 :=
    if decide (is_Some (counts !! cid)) then counts
    else <[cid := []]> counts in
  let requests := default [] (counts1 !! cid) in
  let valid := filter (λ timestamp, timestamp > windowStart now) requests in
  let counts2 := <[cid := valid]> counts1 in
  if bool_decide (Z.of_nat (length valid) >= maxRequests) then
    {| turn :=
         {| requestCounts := counts2;
            response := json (rejectionBody valid now) (status 429 res);
            nextCalled := false |};
       thrown := None |}
  else
    let valid' := valid ++ [now] in
    let counts3 := <[cid := valid']> counts2 in
    let res1 := setHeader "X-RateLimit-Limit" (HNumber maxRequests) res in
    let res2 :=
      setHeader "X-RateLimit-Remaining"
        (HNumber (Z.max 0 (maxRequests - Z.of_nat (length valid')))) res1 in
    match toISOString (now + windowMs) with
    | Normal reset =>
        {| turn :=
             {| requestCounts := counts3;
                response := setHeader "X-RateLimit-Reset" reset res2;
                nextCalled := true |};
           thrown := None |}
    | Throw error =>
        {| turn :=
             {| requestCounts := counts3; response := res2;
                nextCalled := false |};
           thrown := Some error |}
    end.
End middleware.

Definition windowMsOf (options : Options) : Z :=
  default (15 * 60 * 1000) (opt_windowMs options).
Definition maxRequestsOf (options : Options) : Z :=
  default 100 (opt_maxRequests options).
Definition messageOf (options : Options) : string :=
  default "Too many requests from this IP, please try again later."
    (opt_message options).
Definition useUserIdOf (options : Options) : bool :=
  default false (opt_useUserId options).

(** The run of the closure for [options] in which the reset instant is
    rendered. *)
Definition limiter (options : Options)
  : Request → Z → gmap string (list Z) → Response → Turn :=
  middleware (windowMsOf options) (maxRequestsOf options)
    (messageOf options) (useUserIdOf options).

(** The closure that the factory returns for [options]. *)
Definition closure (options : Options)
  : Request → Z → gmap string (list Z) → Response → Run :=
  invoke (windowMsOf options) (maxRequestsOf options)
    (messageOf options) (useUserIdOf options).


(** The instances that the module exports. *)
Definition general : Options :=
  {| opt_windowMs := Some (15 * 60 * 1000); opt_maxRequests := Some 100;
     opt_message := None; opt_useUserId := None |}.
Definition auth : Options :=
  {| opt_windowMs := Some (15 * 60 * 1000); opt_maxRequests := Some 30;
     opt_message :=
       Some "Too many authentication attempts. Please try again later.";
     opt_useUserId := None |}.
Definition upload : Options :=
  {| opt_windowMs := Some (60 * 60 * 1000); opt_maxRequests := Some 20;
     opt_message := Some "Upload limit exceeded. Please try again later.";
     opt_useUserId := None |}.
Definition payment : Options :=
  {| opt_windowMs := Some (15 * 60 * 1000); opt_maxRequests := Some 10;
     opt_message := Some "Too many payment requests. Please try again later.";
     opt_useUserId := Some true |}.

(** *** The periodic cleanup

    Once an hour a timer walks over the map: every array is filtered
    against the retention horizon [maxAge]; a client whose array comes out
    empty is deleted, the others get the filtered array. *)
Definition maxAge : Z := 60 * 60 * 1000.

Definition sweepStep (now : Z) (acc : gmap string (list Z))
    (entry : string * list Z) : gmap string (list Z) :=
  let valid := filter (λ timestamp, timestamp > now - maxAge) entry.2 in
  if bool_decide (length valid = 0%nat)
  then delete entry.1 acc
  else <[entry.1 := valid]> acc.

Definition sweep (now : Z) (counts : gmap string (list Z))
  : gmap string (list Z) :=
  foldl (sweepStep now) counts (map_to_list counts).

(** *** Sequences of events

    One inbound request: the limiter instance it passes through, the
    request and the reading of [Date.now()].  All instances work on the
    same map, and so does the cleanup. *)
Record Call : Type := mkCall {
  via : Options;
  request : Request;
  at_ : Z
}.

Inductive Event : Type :=
| Arrive (c : Call)
| Sweep (now : Z).

Definition clientOf (c : Call) : string :=
  clientId (useUserIdOf (via c)) (request c).

Definition handle (c : Call) (counts : gmap string (list Z)) : Turn :=
  limiter (via c) (request c) (at_ c) counts freshResponse.

(** The map after one event. *)
Definition occur (e : Event) (counts : gmap string (list Z))
  : gmap string (list Z) :=
  match e with
  | Arrive c => requestCounts (handle c counts)
  | Sweep now => sweep now counts
  end.


(** The map after the events. *)
Definition countsAfter (events : list Event) (counts : gmap string (list Z))
  : gmap string (list Z) :=
  foldl (λ m e, occur e m) counts events.

(** The timestamps of the requests of client [cid] that were admitted. *)
Fixpoint admitted (cid : string) (events : list Event)
    (counts : gmap string (list Z)) : list Z :=
  match events with
  | [] => []
  | e :: events' =>
      match e with
      | Arrive c =>
          if bool_decide (clientOf c = cid) && nextCalled (handle c counts)
          then [at_ c] else []
      | Sweep _ => []
      end ++ admitted cid events' (occur e counts)
  end.

(** *** Notions used to state the properties *)

(** The client a request is accounted to by a limiter instance, and the
    client's in-window timestamps at the time of a call: the recorded
    timestamps newer than [now - windowMs]. *)
Definition client (lim : Options) (req : Request) : string :=
  clientId (useUserIdOf lim) req.

Definition inWindow (lim : Options) (counts : gmap string (list Z))
    (req : Request) (now : Z) : list Z :=
  validRequests (windowMsOf lim) counts (client lim req) now.

(** What the cleanup leaves for a client: the timestamps inside the
    retention horizon, and no entry at all when there is none. *)
Definition swept (now : Z) (requests : list Z) : option (list Z) :=
  if bool_decide (length (filter (λ t, t > now - maxAge) requests) = 0%nat)
  then None
  else Some (filter (λ t, t > now - maxAge) requests).



End rateLimiter.

(** ** The cache service *)

Module cacheService.

Record CacheItem : Type := mkItem {
  value : JsValue;
  expiresAt : Z;
  createdAt : Z
}.

Record CacheService : Type := mkCache {
  cache : gmap string CacheItem;
  defaultTTL : Z
}.

(** [constructor()]: it takes no argument. *)
Definition constructor : Completion CacheService :=
  Normal {| cache := ∅; defaultTTL := 5 * 60 * 1000 |}.

Definition withCache (this : CacheService) (c : gmap string CacheItem)
  : CacheService :=
  {| cache := c; defaultTTL := defaultTTL this |}.

(** [get(key)]; [now] is the reading of [Date.now()]. *)
Definition get (key : string) (now : Z) (this : CacheService)
  : JsValue * CacheService :=
  match cache this !! key with
  | None => (VNull, this)
  | Some item =>
      if bool_decide (now > expiresAt item)
      then (VNull, withCache this (delete key (cache this)))
      else (value item, this)
  end.

(** [set(key, value, ttl = this.defaultTTL)]; [nowE] is the reading of
    [Date.now()] used for [expiresAt], [nowC] the later one used for
    [createdAt]. *)
Definition set (key : string) (v : JsValue) (ttl : option Z) (nowE nowC : Z)
    (this : CacheService) : CacheService :=
  let ttl := default (defaultTTL this) ttl in
  let expiresAt := nowE + ttl in
  withCache this
    (<[key := {| value := v; expiresAt := expiresAt; createdAt := nowC |}]>
       (cache this)).

Definition clear (this : CacheService) : CacheService :=
  withCache this ∅.

Definition has (key : string) (now : Z) (this : CacheService)
  : bool * CacheService :=
  match cache this !! key with
  | None => (false, this)
  | Some item =>
      if bool_decide (now > expiresAt item)
      then (false, withCache this (delete key (cache this)))
      else (true, this)
  end.

Section getOrSet.
(** [fetchFn] is awaited: whatever it does, and whatever other turns of
    the event loop do meanwhile, may change the cache and the state [S]
    of the rest of the program. *)
Context {S : Type}.

Definition Supplier : Type :=
  CacheService * S → Completion JsValue * (CacheService * S).

(** [getOrSet(key, fetchFn, ttl = this.defaultTTL)]; [nowG] is read by
    [get], [nowE] and [nowC] by [set] after the supplier has
    resolved. *)
Definition getOrSet (key : string) (fetchFn : Supplier) (ttl : option Z)
    (nowG nowE nowC : Z) (w : CacheService * S)
  : Completion JsValue * (CacheService * S) :=
  let ttl := default (defaultTTL w.1) ttl in
  let '(cached, this1) := get key nowG w.1 in
  if negb (isNull cached) then (Normal cached, (this1, w.2))
  else
    match fetchFn (this1, w.2) with
    | (Normal v, (this2, s2)) =>
        (Normal v, (set key v (Some ttl) nowE nowC this2, s2))
    | (Throw e, w2) => (Throw e, w2)
    end.
End getOrSet.

(** One iteration of the loop of [cleanExpired]. *)
Definition cleanExpiredStep (now : Z) (acc : Z * gmap string CacheItem)
    (entry : string * CacheItem) : Z * gmap string CacheItem :=
  if bool_decide (now > expiresAt entry.2)
  then (acc.1 + 1, delete entry.1 acc.2)
  else acc.

(** [cleanExpired()]: the loop runs over the entries of the map. *)
Definition cleanExpired (now : Z) (this : CacheService)
  : Z * CacheService :=
  let '(removed, c) :=
    foldl (cleanExpiredStep now) (0, cache this) (map_to_list (cache this)) in
  (removed, withCache this c).

Record Stats : Type := mkStats {
  total : Z;
  active : Z;
  expired : Z;
  hitRate : Z
}.

Definition getStatsStep (now : Z) (acc : Z * Z) (item : CacheItem) : Z * Z :=
  if bool_decide (now > expiresAt item)
  then (acc.1 + 1, acc.2)
  else (acc.1, acc.2 + 1).

Definition getStats (now : Z) (this : CacheService) : Stats :=
  let '(expired, active) :=
    foldl (getStatsStep now) (0, 0) (map_to_list (cache this)).*2 in
  {| total := Z.of_nat (size (cache this));
     active := active; expired := expired; hitRate := 0 |}.

(** [delete(key)]: whether an entry was present, and the map without
    it.  It comes last so that the methods above can name the operation
    [delete] of the map without qualification. *)
Definition delete (key : string) (this : CacheService)
  : bool * CacheService :=
  (bool_decide (is_Some (cache this !! key)),
   withCache this (base.delete key (cache this))).

(** *** Notions used to state the properties *)

(** The entry that [set] writes. *)
Definition written (this : CacheService) (v : JsValue) (ttl : option Z)
    (nowE nowC : Z) : CacheItem :=
  {| value := v; expiresAt := nowE + default (defaultTTL this) ttl;
     createdAt := nowC |}.

Definition isExpired (now : Z) (entry : string * CacheItem) : Prop :=
  now > expiresAt entry.2.

Global Instance isExpired_dec now entry : Decision (isExpired now entry).
Proof. unfold isExpired. apply _. Defined.

(** [getOrSet] called once per reading of the clock, one call after the
    other, with the same key, supplier and [ttl]. *)
Fixpoint getOrSetEach {S : Type} (key : string) (f : @Supplier S)
    (ttl : option Z) (times : list Z) (w : CacheService * S)
  : CacheService * S :=
  match times with
  | [] => w
  | now :: times' =>
      getOrSetEach key f ttl times' (getOrSet key f ttl now now now w).2
  end.

(** The key has no entry, or an entry whose value is [null]. *)
Definition nullish (key : string) (this : CacheService) : Prop :=
  match cache this !! key with
  | Some item => value item = VNull
  | None => True
  end.

End cacheService.

(** ** The response cache

    The middleware of [cache.js] in front of the cache service.  It
    replaces [res.json] by a function that stores the payload before it
    calls the function that was there before.  The replacement is kept as
    data: a response carries the list of the replacements installed on it,
    the latest first, and [res.json] runs through that list down to the
    original method, which sends the payload. *)

Module cacheMiddleware.
Import cacheService.

Record Request : Type := mkRequest {
  method : string;
  originalUrl : option string;
  url : string
}.

(** What a predicate over the response can read. *)
Record ResponseState : Type := mkState {
  statusCode : Z;
  headers : gmap string string;
  body : option JsValue
}.

(** One replacement of [res.json]: the variables its closure captured. *)
Record Override : Type := mkOverride {
  req_ : Request;
  cacheKey : string;
  ttl_ : Z;
  shouldCache_ : Request → ResponseState → bool
}.

Record Response : Type := mkResponse {
  state : ResponseState;
  overrides : list Override
}.

Record Options : Type := mkOptions {
  ttl : option Z;
  keyGenerator : option (Request → string);
  shouldCache : option (Request → ResponseState → bool)
}.

Record Outcome : Type := mkOutcome {
  response : Response;
  service : CacheService;
  nextCalled : bool
}.

Definition setHeader (name v : string) (st : ResponseState) : ResponseState :=
  {| statusCode := statusCode st; headers := <[name := v]> (headers st);
     body := body st |}.

(** The original [res.json]: the payload goes out. *)
Definition send (data : JsValue) (st : ResponseState) : ResponseState :=
  {| statusCode := statusCode st; headers := headers st; body := Some data |}.

(** [res.status(code)] *)
Definition status (code : Z) (res : Response) : Response :=
  {| state := {| statusCode := code; headers := headers (state res);
                 body := body (state res) |};
     overrides := overrides res |}.

(** The defaults of the destructuring pattern. *)
Definition ttlOf (options : Options) : Z :=
  default (5 * 60 * 1000) (ttl options).

Definition keyGeneratorOf (options : Options) : Request → string :=
  default (λ req, method req +:+ ":"
                  +:+ (if truthy (originalUrl req)
                       then default "" (originalUrl req) else url req))
    (keyGenerator options).

Definition shouldCacheOf (options : Options)
  : Request → ResponseState → bool :=
  default (λ req res, String.eqb (method req) "GET"
                      && bool_decide (statusCode res = 200))
    (shouldCache options).

(** [res.json(data)] with the replacements [installed]; [clock i] is the
    [i]-th reading of [Date.now()] from the [k]-th on. *)
Fixpoint json (installed : list Override) (data : JsValue) (clock : nat → Z)
    (k : nat) (st : ResponseState) (this : CacheService)
  : ResponseState * CacheService :=
  match installed with
  | [] => (send data st, this)
  | o :: originalJson =>
      let st1 := setHeader "X-Cache" "MISS" st in
      if shouldCache_ o (req_ o) st1 then
        json originalJson data clock (S (S k)) st1
          (set (cacheKey o) data (Some (ttl_ o)) (clock k) (clock (S k)) this)
      else json originalJson data clock k st1 this
  end.

(** The handler calls [res.json(data)]. *)
Definition resJson (data : JsValue) (clock : nat → Z) (res : Response)
    (this : CacheService) : Response * CacheService :=
  let '(st, this') := json (overrides res) data clock 0 (state res) this in
  ({| state := st; overrides := overrides res |}, this').

(** The middleware; [now] is read by [cacheService.get]. *)
Definition cacheMiddleware (options : Options) (req : Request) (now : Z)
    (clock : nat → Z) (res : Response) (this : CacheService) : Outcome :=
  if negb (String.eqb (method req) "GET") then
    {| response := res; service := this; nextCalled := true |}
  else
    let key := keyGeneratorOf options req in
    let '(cached, this1) := get key now this in
    if negb (isNull cached) then
      let '(res', this2) :=
        resJson cached clock
          {| state := setHeader "X-Cache" "HIT" (state res);
             overrides := overrides res |} this1 in
      {| response := res'; service := this2; nextCalled := false |}
    else
      {| response :=
           {| state := state res;
              overrides :=
                {| req_ := req; cacheKey := key; ttl_ := ttlOf options;
                   shouldCache_ := shouldCacheOf options |}
                :: overrides res |};
         service := this1;
         nextCalled := true |}.

(** The argument of [clearCache]: a function, or a key. *)
Inductive KeyOrFn : Type :=
| Fn
| Key (key : string).

Definition clearCache (keyOrFn : KeyOrFn) (this : CacheService)
  : CacheService :=
  match keyOrFn with
  | Fn => clear this
  | Key key => (cacheService.delete key this).2
  end.

(** *** Notions used to state the properties *)

(** A response on which nothing has acted yet. *)
Definition freshResponse : Response :=
  {| state := {| statusCode := 200; headers := ∅; body := None |};
     overrides := [] |}.

(** The route: the middleware, then, if it calls [next], a handler that
    sets the status [code] and sends [data]. *)
Definition route (options : Options) (req : Request) (now : Z)
    (clock : nat → Z) (code : Z) (data : JsValue) (this : CacheService)
  : Response * CacheService :=
  let out := cacheMiddleware options req now clock freshResponse this in
  if nextCalled out
  then resJson data clock (status code (response out)) (service out)
  else (response out, service out).

End cacheMiddleware.

(** ** Request validation

    The rule-driven validation middleware of [validate.js].  A validator
    takes the name of a field, its value and the object the field was read
    from, and returns an error message or [null].

    The object a field is read from is a [JsValue]; reading a field of an
    object looks the name up among its own properties.  Inherited
    properties and the index and [length] properties of arrays and strings
    are outside the model, so field names are taken not to coincide with
    one of those.  Strings are made of single-unit characters, so that the
    [length] of a string is the number of its characters.  [isInt], [range]
    and the rules built on them convert strings to numbers and are not
    modelled. *)

Module validate.

Definition Validator : Type := string → JsValue → JsValue → option string.

Definition isUndefined (v : JsValue) : bool :=
  match v with VUndefined => true | _ => false end.

(** [value === ''] *)
Definition isEmptyString (v : JsValue) : bool :=
  match v with VString s => String.eqb s "" | _ => false end.

(** [value !== undefined && value !== null && value !== ''] *)
Definition isPresent (v : JsValue) : bool :=
  negb (isUndefined v) && negb (isNull v) && negb (isEmptyString v).

(** [typeof value] *)
Definition typeOf (v : JsValue) : string :=
  match v with
  | VUndefined => "undefined"
  | VNull => "object"
  | VBool _ => "boolean"
  | VNumber _ => "number"
  | VString _ => "string"
  | VArray _ => "object"
  | VObject _ => "object"
  end.

(** [Array.isArray(value)] *)
Definition Array_isArray (v : JsValue) : bool :=
  match v with VArray _ => true | _ => false end.

(** [isNaN(value)] on a value of type number *)
Definition Number_isNaN (v : JsValue) : bool :=
  match v with VNumber NaN => true | _ => false end.

(** [strings.join(sep)] *)
Fixpoint join (sep : string) (strings : list string) : string :=
  match strings with
  | [] => ""
  | [s] => s
  | s :: rest => s +:+ sep +:+ join sep rest
  end.

(** [String(value)]; in an array [null] and [undefined] are rendered as
    the empty string. *)
Fixpoint toString (v : JsValue) : string :=
  match v with
  | VUndefined => "undefined"
  | VNull => "null"
  | VBool b => if b then "true" else "false"
  | VNumber n => numberToString n
  | VString s => s
  | VArray items =>
      join ","
        ((fix each (l : list JsValue) : list string :=
            match l with
            | [] => []
            | x :: l' =>
                (if isUndefined x || isNull x then "" else toString x)
                :: each l'
            end) items)
  | VObject _ => "[object Object]"
  end.

(** [data?.[field]] *)
Fixpoint lookupField (fields : list (string * JsValue)) (field : string)
  : JsValue :=
  match fields with
  | [] => VUndefined
  | (name, v) :: fields' =>
      if String.eqb name field then v else lookupField fields' field
  end.

Definition getField (data : JsValue) (field : string) : JsValue :=
  match data with
  | VObject fields => lookupField fields field
  | _ => VUndefined
  end.

(** *** The validators *)

Module validators.

Definition required : Validator := λ field value _,
  if isUndefined value || isNull value || isEmptyString value
  then Some (field +:+ " is required")
  else None.

Definition optional : Validator := λ _ _ _, None.

Definition isString : Validator := λ field value _,
  if negb (isUndefined value) && negb (String.eqb (typeOf value) "string")
  then Some (field +:+ " must be a string")
  else None.

Definition isNumber : Validator := λ field value _,
  if negb (isUndefined value)
     && (negb (String.eqb (typeOf value) "number") || Number_isNaN value)
  then Some (field +:+ " must be a number")
  else None.

Definition isBoolean : Validator := λ field value _,
  if negb (isUndefined value) && negb (String.eqb (typeOf value) "boolean")
  then Some (field +:+ " must be a boolean")
  else None.

Definition isArray : Validator := λ field value _,
  if negb (isUndefined value) && negb (Array_isArray value)
  then Some (field +:+ " must be an array")
  else None.

Definition isObject : Validator := λ field value _,
  if negb (isUndefined value)
     && (negb (String.eqb (typeOf value) "object") || Array_isArray value
         || isNull value)
  then Some (field +:+ " must be an object")
  else None.

Section formats.
(** The predicates of [sanitize.js], which is not part of the sources at
    hand. *)
Variables (isValidEmail isValidUrl isValidObjectId : JsValue → bool).

Definition isEmail : Validator := λ field value _,
  if isPresent value && negb (isValidEmail value)
  then Some (field +:+ " must be a valid email address")
  else None.

Definition isUrl : Validator := λ field value _,
  if isPresent value && negb (isValidUrl value)
  then Some (field +:+ " must be a valid URL")
  else None.

Definition isMongoId : Validator := λ field value _,
  if isPresent value && negb (isValidObjectId value)
  then Some (field +:+ " must be a valid MongoDB ObjectId")
  else None.
End formats.

(** [validators.length(min, max)]; an absent bound is [undefined]. *)
Definition length (min max : option Z) : Validator := λ field value _,
  if isPresent value then
    let len :=
      Z.of_nat (String.length
                  (match value with
                   | VString s => s
                   | _ => toString value
                   end)) in
    match min, max with
    | Some lo, _ =>
        if bool_decide (len < lo)
        then Some (field +:+ " must be at least " +:+ numberToString (Int lo)
                   +:+ " characters")
        else match max with
             | Some hi =>
                 if bool_decide (len > hi)
                 then Some (field +:+ " must be at most " +:+ numberToString (Int hi)
                            +:+ " characters")
                 else None
             | None => None
             end
    | None, Some hi =>
        if bool_decide (len > hi)
        then Some (field +:+ " must be at most " +:+ numberToString (Int hi)
                   +:+ " characters")
        else None
    | None, None => None
    end
  else None.

(** [validators.isIn(allowedValues)] for a list of strings. *)
Definition isIn (allowedValues : list string) : Validator := λ field value _,
  if isPresent value
     && negb (match value with
              | VString s => bool_decide (s ∈ allowedValues)
              | _ => false
              end)
  then Some (field +:+ " must be one of: " +:+ join ", " allowedValues)
  else None.

(** [validators.arrayLength(min, max)] *)
Definition arrayLength (min max : option Z) : Validator := λ field value _,
  if negb (isUndefined value) && negb (isNull value) then
    match value with
    | VArray items =>
        let len := Z.of_nat (List.length items) in
        match min with
        | Some lo =>
            if bool_decide (len < lo)
            then Some (field +:+ " must have at least " +:+ numberToString (Int lo)
                       +:+ " items")
            else match max with
                 | Some hi =>
                     if bool_decide (len > hi)
                     then Some (field +:+ " must have at most " +:+ numberToString (Int hi)
                                +:+ " items")
                     else None
                 | None => None
                 end
        | None =>
            match max with
            | Some hi =>
                if bool_decide (len > hi)
                then Some (field +:+ " must have at most " +:+ numberToString (Int hi)
                           +:+ " items")
                else None
            | None => None
            end
        end
    | _ => Some (field +:+ " must be an array")
    end
  else None.

(** [validators.custom(fn, message)] *)
Definition custom (fn : JsValue → JsValue → bool) (message : option string)
  : Validator := λ field value allData,
  if isPresent value then
    if negb (fn value allData)
    then (if truthy message then message else Some (field +:+ " is invalid"))
    else None
  else None.

End validators.

(** *** The common rules *)

Module commonRules.
Import validators.

Section formats.
Variables (isValidEmail isValidUrl isValidObjectId : JsValue → bool).

Definition email : list Validator := [required; isEmail isValidEmail].
Definition optionalEmail : list Validator := [optional; isEmail isValidEmail].
Definition mongoId : list Validator :=
  [required; isMongoId isValidObjectId].
Definition optionalMongoId : list Validator :=
  [optional; isMongoId isValidObjectId].
Definition url : list Validator := [required; isUrl isValidUrl].
Definition optionalUrl : list Validator := [optional; isUrl isValidUrl].
End formats.

Definition optionalString (min max : option Z) : list Validator :=
  [optional; isString;
   length (Some (default 0 min)) (Some (default 1000 max))].

Definition boolean : list Validator := [required; isBoolean].
Definition optionalBoolean : list Validator := [optional; isBoolean].

Definition array (min max : option Z) : list Validator :=
  [required; isArray; arrayLength min max].
Definition optionalArray (min max : option Z) : list Validator :=
  [optional; isArray; arrayLength min max].

(** [commonRules.string]; it comes last because of its name. *)
Definition string (min max : option Z) : list Validator :=
  [required; isString;
   length (Some (default 1 min)) (Some (default 1000 max))].

End commonRules.

(** *** The middleware *)

(** [rules]: per part of the request, the fields with their validators, in
    the order of [Object.entries]. *)
Record Rules : Type := mkRules {
  rules_body : option (list (string * list Validator));
  rules_params : option (list (string * list Validator));
  rules_query : option (list (string * list Validator))
}.

Record Request : Type := mkRequest {
  body : JsValue;
  params : JsValue;
  query : JsValue
}.

Record AppError : Type := mkAppError {
  message : string;
  statusCode : Z;
  code : string
}.

(** The argument [next] is called with. *)
Inductive Next : Type :=
| next
| nextError (error : AppError).

(** The inner loop: the validators of one field in order, up to the first
    error. *)
Fixpoint firstError (validators : list Validator) (field : string)
    (value allData : JsValue) : option string :=
  match validators with
  | [] => None
  | validator :: validators' =>
      let error := validator field value allData in
      if truthy error then error
      else firstError validators' field value allData
  end.

(** The outer loop over the fields of one part of the request. *)
Definition checkPart (part : option (list (string * list Validator)))
    (data : JsValue) (errors : list string) : list string :=
  match part with
  | None => errors
  | Some fields =>
      foldl (λ errors entry,
               match firstError entry.2 entry.1 (getField data entry.1) data
               with
               | Some error => errors ++ [error]
               | None => errors
               end)
        errors fields
  end.

Definition validate (rules : Rules) (req : Request) : Next :=
  let errors := checkPart (rules_body rules) (body req) [] in
  let errors := checkPart (rules_params rules) (params req) errors in
  let errors := checkPart (rules_query rules) (query req) errors in
  if bool_decide (0 < List.length errors)%nat
  then nextError {| message := join ", " errors; statusCode := 400;
                    code := "VALIDATION_ERROR" |}
  else next.

(** *** Notions used to state the properties *)

(** The validator does not complain: what it returns is [null] (or the
    empty string, which the middleware takes for no error). *)
Definition falsy (field : string) (value allData : JsValue)
    (validator : Validator) : Prop :=
  truthy (validator field value allData) = false.

(** Every validator of the field lets the value pass. *)
Definition passes (validators : list Validator) (field : string)
    (value allData : JsValue) : Prop :=
  firstError validators field value allData = None.

(** The fields of a part of the request, each with its validators and the
    object it is read from. *)
Definition fieldsOf (part : option (list (string * list Validator)))
    (data : JsValue) : list (string * list Validator * JsValue) :=
  (λ entry, (entry, data)) <$> default [] part.

Definition allFields (rules : Rules) (req : Request)
  : list (string * list Validator * JsValue) :=
  fieldsOf (rules_body rules) (body req)
  ++ fieldsOf (rules_params rules) (params req)
  ++ fieldsOf (rules_query rules) (query req).

(** The error of a field, if it has one. *)
Definition errorOf (f : string * list Validator * JsValue) : option string :=
  firstError f.1.2 f.1.1 (getField f.2 f.1.1) f.2.

End validate.

(** ** Scenarios

    The requests, limiter instances, caches and suppliers of the examples. *)

Module scenarios.
Import rateLimiter cacheService.

Definition anon (addr : string) : Request :=
  {| userId := None; ip := Some addr; remoteAddress := None |}.

Definition quota (w m : Z) : Options :=
  {| opt_windowMs := Some w; opt_maxRequests := Some m;
     opt_message := None; opt_useUserId := None |}.

(** Requests of one address through one limiter at the given instants;
    the limiter of the examples allows two requests a second. *)
Definition exampleCallsAt (lim : Options) (times : list Z) : list Event :=
  map (λ now, Arrive (mkCall lim (anon "10.0.0.1") now)) times.

Definition exampleCalls (times : list Z) : list Event :=
  exampleCallsAt (quota 1000 2) times.

(** Thirty-one requests of one address through the exported [general]
    limiter: one at 0 and thirty at 1000. *)
Definition generalBurst : list Event :=
  exampleCallsAt general (0 :: replicate 30 1000).

(** Three requests in three milliseconds through a limiter of two requests
    a minute. *)
Definition rapidCalls : list Event :=
  exampleCallsAt (quota 60000 2) [0; 1; 2].

(** Successive calls of one closure for one request at the given
    instants, each on a new response and on the map that the call before
    it left. *)
Fixpoint invocations (lim : Options) (req : Request) (times : list Z)
    (counts : gmap string (list Z)) : list Run :=
  match times with
  | [] => []
  | now :: later =>
      closure lim req now counts freshResponse
      :: invocations lim req later
           (requestCounts
              (turn (closure lim req now counts freshResponse)))
  end.

(** The service as the module creates it. *)
Definition fresh : CacheService :=
  {| cache := ∅; defaultTTL := 5 * 60 * 1000 |}.

(** A supplier that resolves to [v] and counts its invocations; it leaves
    the cache alone. *)
Definition countingSupplier (v : JsValue) : @Supplier nat :=
  λ w, (Normal v, (w.1, S w.2)).

(** Two calls of [getOrSet] one millisecond apart with a [ttl] of 1000,
    on a new cache and a supplier that has not been invoked yet. *)
Definition firstCall (v : JsValue) : Completion JsValue * (CacheService * nat) :=
  getOrSet "k" (countingSupplier v) (Some 1000) 0 0 0 (fresh, 0%nat).

Definition secondCall (v : JsValue) : Completion JsValue * (CacheService * nat) :=
  getOrSet "k" (countingSupplier v) (Some 1000) 1 1 1 (firstCall v).2.

End scenarios.

(** ** Runs of the limiter

    Notions for the properties of whole runs: the reading of the clock at
    an event, and the events that a quota of [m] requests per [w]
    milliseconds governs for client [cid]. *)

Module runs.
Import rateLimiter.

Definition timeOf (e : Event) : Z :=
  match e with
  | Arrive c => at_ c
  | Sweep now => now
  end.

(** A request that, if it is a request of [cid], passes through a limiter
    of window length [w] and of quota at most [m]; or a cleanup, whose
    retention horizon must not be shorter than the window. *)
Definition governed (cid : string) (w m : Z) (e : Event) : Prop :=
  match e with
  | Arrive c =>
      clientOf c = cid → windowMsOf (via c) = w ∧ maxRequestsOf (via c) ≤ m
  | Sweep _ => w ≤ maxAge
  end.

(** A request of a client other than [cid]. *)
Definition foreignTo (cid : string) (e : Event) : Prop :=
  match e with
  | Arrive c => clientOf c ≠ cid
  | Sweep _ => False
  end.

(** The timestamps of [l] inside the window that ends at [T]. *)
Definition inWindowAt (w T : Z) (l : list Z) : list Z :=
  filter (λ t, T - w < t ∧ t ≤ T) l.

(** What a run keeps true at the instant [tlast]: for every later request
    the array of [cid] shows the same in-window timestamps as the list
    [adm] of all timestamps admitted so far; none of these is later than
    [tlast]; and no window holds more than [m] of them. *)
Definition faithful (cid : string) (w m : Z) (tlast : Z)
    (counts : gmap string (list Z)) (adm : list Z) : Prop :=
  (∀ now, tlast ≤ now →
     filter (λ t, t > now - w) (default [] (counts !! cid))
     = filter (λ t, t > now - w) adm)
  ∧ Forall (λ t, t ≤ tlast) adm
  ∧ ∀ T, Z.of_nat (length (inWindowAt w T adm)) ≤ m.

End runs.

(** ** More scenarios *)

Module moreScenarios.
Import cacheService scenarios.

(** A supplier that rejects with [e], counts its invocations and leaves
    the cache alone. *)
Definition failingSupplier (e : JsValue) : @Supplier nat :=
  λ w, (Throw e, (w.1, S w.2)).

End moreScenarios.

(** * Properties of the rate limiter *)

Module rateLimiterSpec.
Import rateLimiter scenarios.

(** *** One run of the middleware *)

Section one_turn.
Variables (windowMs maxRequests : Z) (message : string) (useUserId : bool).
Variables (req : Request) (now : Z).
Variables (counts : gmap string (list Z)) (res : Response).

Let cid := clientId useUserId req.
Let valid := validRequests windowMs counts cid now.
Let turn := middleware windowMs maxRequests message useUserId req now counts res.

(** The entry created for an unknown client is empty, so the filtered
    array is the same with and without it. *)
Lemma middleware_unfold :
  turn =
  if bool_decide (Z.of_nat (length valid) >= maxRequests) then
    {| requestCounts := <[cid := valid]> counts;
       response := json (rejectionBody windowMs message valid now)
                     (status 429 res);
       nextCalled := false |}
  else
    {| requestCounts := <[cid := valid ++ [now]]> counts;
       response :=
         setHeader "X-RateLimit-Reset" (HIsoString (now + windowMs))
           (setHeader "X-RateLimit-Remaining"
              (HNumber (Z.max 0
                 (maxRequests - Z.of_nat (length (valid ++ [now])))))
              (setHeader "X-RateLimit-Limit" (HNumber maxRequests) res));
       nextCalled := true |}.
Proof.
  subst turn valid cid. unfold middleware, validRequests.
  destruct (decide (is_Some (counts !! clientId useUserId req))) as [Hs|Hn].
  - case_bool_decide; [done|]. by rewrite insert_insert_eq.
  - apply eq_None_not_Some in Hn. rewrite Hn, lookup_insert_eq. simpl.
    rewrite !insert_insert_eq. done.
Qed.

Lemma rejected_iff :
  nextCalled turn = false ↔ maxRequests ≤ Z.of_nat (length valid).
Proof.
  rewrite middleware_unfold. case_bool_decide; simpl; split; (lia || done).
Qed.

Lemma admitted_iff :
  nextCalled turn = true ↔ Z.of_nat (length valid) < maxRequests.
Proof.
  rewrite middleware_unfold. case_bool_decide; simpl; split; (lia || done).
Qed.

Lemma rejected_counts :
  nextCalled turn = false → requestCounts turn = <[cid := valid]> counts.
Proof. rewrite middleware_unfold. by case_bool_decide. Qed.

Lemma admitted_counts :
  nextCalled turn = true →
  requestCounts turn = <[cid := valid ++ [now]]> counts.
Proof. rewrite middleware_unfold. by case_bool_decide. Qed.

Lemma other_client_untouched (other : string) :
  other ≠ cid → requestCounts turn !! other = counts !! other.
Proof.
  intros Hne. rewrite middleware_unfold.
  case_bool_decide; simpl; by rewrite lookup_insert_ne.
Qed.
End one_turn.

(** *** The exception of the closure *)

Section one_invocation.
Variables (windowMs maxRequests : Z) (message : string) (useUserId : bool).
Variables (req : Request) (now : Z).
Variables (counts : gmap string (list Z)) (res : Response).

(** The closure throws exactly when it admits the request and the reset
    instant is no time value; the timestamp is recorded and the first two
    headers are set by then.  In every other case it ends as [middleware]
    says. *)
Lemma invoke_unfold :
  invoke windowMs maxRequests message useUserId req now counts res =
  if nextCalled
       (middleware windowMs maxRequests message useUserId req now counts res)
     && negb (isTimeValue (now + windowMs))
  then
    {| turn :=
         {| requestCounts :=
              requestCounts
                (middleware windowMs maxRequests message useUserId
                   req now counts res);
            response :=
              setHeader "X-RateLimit-Remaining"
                (HNumber (Z.max 0
                   (maxRequests
                    - Z.of_nat
                        (length
                           (validRequests windowMs counts
                              (clientId useUserId req) now ++ [now])))))
                (setHeader "X-RateLimit-Limit" (HNumber maxRequests) res);
            nextCalled := false |};
       thrown := Some rangeError |}
  else
    {| turn :=
         middleware windowMs maxRequests message useUserId req now counts res;
       thrown := None |}.
Proof.
  unfold invoke, middleware, toISOString, validRequests.
  destruct (decide (is_Some (counts !! clientId useUserId req))) as [Hs|Hn].
  - case_bool_decide; [done|].
    by destruct (isTimeValue (now + windowMs)).
  - apply eq_None_not_Some in Hn. rewrite Hn, lookup_insert_eq. simpl.
    case_bool_decide; [done|].
    by destruct (isTimeValue (now + windowMs)).
Qed.

Lemma invoke_returns :
  thrown (invoke windowMs maxRequests message useUserId req now counts res)
  = None →
  turn (invoke windowMs maxRequests message useUserId req now counts res)
  = middleware windowMs maxRequests message useUserId req now counts res.
Proof.
  rewrite invoke_unfold.
  by destruct (nextCalled _ && negb (isTimeValue _)).
Qed.
End one_invocation.

Lemma closure_unfold (lim : Options) (req : Request) (now : Z)
    (counts : gmap string (list Z)) (res : Response) :
  closure lim req now counts res =
  if nextCalled (limiter lim req now counts res)
     && negb (isTimeValue (now + windowMsOf lim))
  then
    {| turn :=
         {| requestCounts := requestCounts (limiter lim req now counts res);
            response :=
              setHeader "X-RateLimit-Remaining"
                (HNumber (Z.max 0
                   (maxRequestsOf lim
                    - Z.of_nat
                        (length (inWindow lim counts req now ++ [now])))))
                (setHeader "X-RateLimit-Limit" (HNumber (maxRequestsOf lim))
                   res);
            nextCalled := false |};
       thrown := Some rangeError |}
  else {| turn := limiter lim req now counts res; thrown := None |}.
Proof. apply invoke_unfold. Qed.

(** The response of a rejection. *)
Lemma limiter_rejection (lim : Options) (req : Request) (now : Z)
    (counts : gmap string (list Z)) (res : Response) :
  nextCalled (limiter lim req now counts res) = false →
  response (limiter lim req now counts res)
  = json (rejectionBody (windowMsOf lim) (messageOf lim)
            (inWindow lim counts req now) now)
      (status 429 res).
Proof.
  unfold limiter. rewrite middleware_unfold. by case_bool_decide.
Qed.

(** The headers of an admission. *)
Lemma limiter_admission (lim : Options) (req : Request) (now : Z)
    (counts : gmap string (list Z)) (res : Response) :
  nextCalled (limiter lim req now counts res) = true →
  Z.of_nat (length (inWindow lim counts req now)) < maxRequestsOf lim
  ∧ response (limiter lim req now counts res)
    = setHeader "X-RateLimit-Reset" (HIsoString (now + windowMsOf lim))
        (setHeader "X-RateLimit-Remaining"
           (HNumber (maxRequestsOf lim
                     - (Z.of_nat (length (inWindow lim counts req now)) + 1)))
           (setHeader "X-RateLimit-Limit" (HNumber (maxRequestsOf lim)) res)).
Proof.
  intros Hadm. apply admitted_iff in Hadm as Hlt.
  fold (client lim req) in Hlt. fold (inWindow lim counts req now) in Hlt.
  split; [done|].
  revert Hadm. unfold limiter. rewrite middleware_unfold.
  fold (client lim req). fold (inWindow lim counts req now).
  case_bool_decide; [done|]. intros _. simpl.
  rewrite length_app. simpl. do 3 f_equal. lia.
Qed.

(** *** The periodic cleanup *)

Lemma filter_keeps_all (P : Z → Prop) `{!∀ t, Decision (P t)} (l : list Z) :
  Forall P l → filter P l = l.
Proof.
  induction 1 as [|t l Ht _ IH]; [done|].
  by rewrite filter_cons_True, IH.
Qed.

Lemma sweepStep_lookup now acc entry key :
  sweepStep now acc entry !! key
  = if decide (key = entry.1) then swept now entry.2 else acc !! key.
Proof.
  unfold sweepStep, swept. case_decide as Hkey.
  - subst key. case_bool_decide.
    + by rewrite lookup_delete_eq.
    + by rewrite lookup_insert_eq.
  - case_bool_decide.
    + by rewrite lookup_delete_ne.
    + by rewrite lookup_insert_ne.
Qed.

Lemma sweep_loop_lookup now (l : list (string * list Z)) :
  ∀ (acc : gmap string (list Z)) (key : string),
    NoDup l.*1 →
    foldl (sweepStep now) acc l !! key
    = match (list_to_map l : gmap string (list Z)) !! key with
      | Some requests => swept now requests
      | None => acc !! key
      end.
Proof.
  induction l as [|[k requests] l IH]; intros acc key Hnodup; [done|].
  rewrite fmap_cons in Hnodup. apply NoDup_cons in Hnodup as [Hfresh Hnodup].
  cbn [foldl]. rewrite IH by done. rewrite sweepStep_lookup. simpl.
  destruct (decide (key = k)) as [->|Hne].
  - rewrite lookup_insert_eq.
    by rewrite (not_elem_of_list_to_map_1 _ _ Hfresh).
  - by rewrite lookup_insert_ne.
Qed.

Lemma sweep_lookup now (counts : gmap string (list Z)) (key : string) :
  sweep now counts !! key = counts !! key ≫= swept now.
Proof.
  unfold sweep.
  rewrite sweep_loop_lookup by apply NoDup_fst_map_to_list.
  rewrite list_to_map_to_list. by destruct (counts !! key).
Qed.

Lemma sweep_default now (counts : gmap string (list Z)) (key : string) :
  default [] (sweep now counts !! key)
  = filter (λ t, t > now - maxAge) (default [] (counts !! key)).
Proof.
  rewrite sweep_lookup. destruct (counts !! key) as [requests|]; [|done].
  simpl. unfold swept. case_bool_decide as Hempty; [|done].
  simpl. symmetry. by apply nil_length_inv.
Qed.

(** *** Sequences of events *)

Lemma countsAfter_cons e events counts :
  countsAfter (e :: events) counts = countsAfter events (occur e counts).
Proof. done. Qed.

Section one_client.
(** One client, and requests of that client that all pass through limiters
    of window length [w] at instants of a span [[t0, t0 + w)]. *)
Variables (cid : string) (w t0 : Z).


End one_client.





(** *** Rejected calls and the map *)

(** C2, as stated, fails.  The exported limiter instances work on the one
    map.  After [general] has admitted an address once at 0 and thirty
    times at 1000, [auth] (thirty requests in fifteen minutes) rejects the
    address at 900500; the rejected call has pruned the timestamp 0, so
    the entry has gone from thirty-one timestamps to thirty. *)
Lemma rejection_prunes_counterexample :
  nextCalled (limiter auth (anon "10.0.0.1") 900500
                (countsAfter generalBurst ∅) freshResponse)
  = false
  ∧ countsAfter generalBurst ∅ !! "10.0.0.1" = Some (0 :: replicate 30 1000)
  ∧ requestCounts (limiter auth (anon "10.0.0.1") 900500
                     (countsAfter generalBurst ∅) freshResponse)
      !! "10.0.0.1"
    = Some (replicate 30 1000)
  ∧ requestCounts (limiter auth (anon "10.0.0.1") 900500
                     (countsAfter generalBurst ∅) freshResponse)
    ≠ countsAfter generalBurst ∅.
Proof.
  split; [by vm_compute|]. split; [by vm_compute|].
  split; [by vm_compute|].
  intros Heq. apply (f_equal (λ m, m !! "10.0.0.1")) in Heq.
  vm_compute in Heq. congruence.
Qed.

(** C2, amended.  A rejected call does not record the attempt: afterwards
    the client's entry holds exactly the timestamps of before that are
    newer than [now - windowMs] (so it never grows), the entries of all
    other clients are as before, and when the client has an entry with no
    timestamp to prune the whole map is as before. *)
Theorem rejection_records_nothing (lim : Options) (req : Request) (now : Z)
    (counts : gmap string (list Z)) (res : Response) :
  nextCalled (limiter lim req now counts res) = false →
  requestCounts (limiter lim req now counts res) !! client lim req
  = Some (inWindow lim counts req now)
  ∧ (length (default []
               (requestCounts (limiter lim req now counts res)
                  !! client lim req))
     ≤ length (default [] (counts !! client lim req)))%nat
  ∧ (∀ other, other ≠ client lim req →
       requestCounts (limiter lim req now counts res) !! other
       = counts !! other)
  ∧ (∀ l, counts !! client lim req = Some l →
          Forall (λ t, t > now - windowMsOf lim) l →
          requestCounts (limiter lim req now counts res) = counts).
Proof.
  intros Hrej. unfold limiter in *.
  rewrite (rejected_counts _ _ _ _ _ _ _ _ Hrej).
  unfold inWindow, client, validRequests, windowStart.
  rewrite lookup_insert_eq.
  repeat split.
  - simpl. apply length_filter.
  - intros other Hne. by rewrite lookup_insert_ne.
  - intros l Hl Hall. rewrite Hl. simpl.
    rewrite filter_keeps_all by done. by apply insert_id.
Qed.

Lemma rejection_records_nothing_witness :
  requestCounts (limiter (quota 1000 2) (anon "10.0.0.1") 500
                   (countsAfter (exampleCalls [0; 400]) ∅) freshResponse)
  = countsAfter (exampleCalls [0; 400]) ∅.
Proof.
  refine (proj2 (proj2 (proj2
    (rejection_records_nothing (quota 1000 2) (anon "10.0.0.1") 500
       (countsAfter (exampleCalls [0; 400]) ∅) freshResponse _)))
    [0; 400] _ _).
  - vm_compute. reflexivity.
  - vm_compute. reflexivity.
  - repeat apply Forall_cons_2; [vm_compute; reflexivity ..| apply Forall_nil_2].
Defined.

(** *** Admitted calls *)

(** C4, as stated, fails.  For a client without recorded timestamps the
    count of in-window timestamps at the time of the call is 0, and the
    limiter with [maxRequests = 2] reports a remaining quota of 1, not
    [2 - 0]: the header counts the request that is being admitted. *)
Lemma remaining_header_counterexample :
  nextCalled (limiter (quota 1000 2) (anon "10.0.0.1") 0 ∅ freshResponse)
  = true
  ∧ inWindow (quota 1000 2) ∅ (anon "10.0.0.1") 0 = []
  ∧ headers (response (limiter (quota 1000 2) (anon "10.0.0.1") 0 ∅
                         freshResponse)) !! "X-RateLimit-Remaining"
    = Some (HNumber 1)
  ∧ headers (response (limiter (quota 1000 2) (anon "10.0.0.1") 0 ∅
                         freshResponse)) !! "X-RateLimit-Remaining"
    ≠ Some (HNumber
              (maxRequestsOf (quota 1000 2)
               - Z.of_nat (length (inWindow (quota 1000 2) ∅
                                     (anon "10.0.0.1") 0)))).
Proof.
  split; [by vm_compute|]. split; [by vm_compute|].
  split; [by vm_compute|]. vm_compute. congruence.
Qed.

(** What an admitted call leaves in the map and in the headers. *)
Lemma admitted_call_report_aux (lim : Options) (req : Request) (now : Z)
    (counts : gmap string (list Z)) (res : Response) :
  nextCalled (limiter lim req now counts res) = true →
  requestCounts (limiter lim req now counts res) !! client lim req
  = Some (inWindow lim counts req now ++ [now])
  ∧ headers (response (limiter lim req now counts res))
      !! "X-RateLimit-Remaining"
    = Some (HNumber (maxRequestsOf lim
                     - (Z.of_nat (length (inWindow lim counts req now)) + 1)))
  ∧ 0 ≤ maxRequestsOf lim
        - (Z.of_nat (length (inWindow lim counts req now)) + 1)
  ∧ headers (response (limiter lim req now counts res))
      !! "X-RateLimit-Reset"
    = Some (HIsoString (now + windowMsOf lim)).
Proof.
  intros Hadm. apply admitted_iff in Hadm as Hlt.
  revert Hadm. unfold limiter. rewrite middleware_unfold.
  fold (client lim req). fold (inWindow lim counts req now) in *.
  case_bool_decide; [done|]. intros _. simpl.
  rewrite lookup_insert_eq. split; [done|].
  rewrite lookup_insert_ne by done. rewrite lookup_insert_eq.
  rewrite length_app. simpl.
  split; [|split; [lia|by rewrite lookup_insert_eq]].
  do 2 f_equal. lia.
Qed.


(** C4, amended.  On every admitted call the limiter appends [now] to the
    client's in-window timestamps and reports, in [X-RateLimit-Remaining],
    [maxRequests - (count + 1)], where [count] is the number of in-window
    timestamps at the time of the call, that is [maxRequests] minus the
    length of the sequence after the append (a number that is never
    negative), and in [X-RateLimit-Reset] the instant [now + windowMs]. *)
Theorem admitted_call_report (lim : Options) (req : Request) (now : Z)
    (counts : gmap string (list Z)) (res : Response) :
  nextCalled (limiter lim req now counts res) = true →
  requestCounts (limiter lim req now counts res) !! client lim req
  = Some (inWindow lim counts req now ++ [now])
  ∧ headers (response (limiter lim req now counts res))
      !! "X-RateLimit-Remaining"
    = Some (HNumber (maxRequestsOf lim
                     - (Z.of_nat (length (inWindow lim counts req now)) + 1)))
  ∧ 0 ≤ maxRequestsOf lim
        - (Z.of_nat (length (inWindow lim counts req now)) + 1)
  ∧ headers (response (limiter lim req now counts res))
      !! "X-RateLimit-Reset"
    = Some (HIsoString (now + windowMsOf lim)).
Proof. apply admitted_call_report_aux. Qed.

Lemma admitted_call_report_witness :
  headers (response (limiter (quota 1000 2) (anon "10.0.0.1") 400
                       (countsAfter (exampleCalls [0]) ∅) freshResponse))
    !! "X-RateLimit-Remaining"
  = Some (HNumber 0).
Proof.
  refine (proj1 (proj2
    (admitted_call_report (quota 1000 2) (anon "10.0.0.1") 400
       (countsAfter (exampleCalls [0]) ∅) freshResponse _))).
  vm_compute. reflexivity.
Defined.

(** *** Response headers *)

(** C5, as stated, fails.  The third call of the example is rejected with
    status 429, and its response carries none of the three headers. *)
Lemma rejected_without_headers_counterexample :
  thrown (closure (quota 1000 2) (anon "10.0.0.1") 500
            (countsAfter (exampleCalls [0; 400]) ∅) freshResponse)
  = None
  ∧ nextCalled (turn (closure (quota 1000 2) (anon "10.0.0.1") 500
                        (countsAfter (exampleCalls [0; 400]) ∅)
                        freshResponse))
    = false
  ∧ statusCode (response (turn (closure (quota 1000 2) (anon "10.0.0.1") 500
                  (countsAfter (exampleCalls [0; 400]) ∅) freshResponse)))
    = 429
  ∧ headers (response (turn (closure (quota 1000 2) (anon "10.0.0.1") 500
               (countsAfter (exampleCalls [0; 400]) ∅) freshResponse)))
    = ∅.
Proof.
  split; [by vm_compute|]. split; [by vm_compute|]. split; by vm_compute.
Qed.

(** C5, amended.  The three headers are set on every request that the
    closure passes on to [next]: [X-RateLimit-Limit] to [maxRequests],
    [X-RateLimit-Remaining] to the quota left after this request and
    [X-RateLimit-Reset] to [now + windowMs].  A rejected request gets
    status 429 and the JSON body with the message and [retryAfter], and
    its headers are left as they were.  The one other way for a call to
    end is the [RangeError] of [toISOString]: the request is within the
    quota, the first two headers are set, the third is not, and neither
    the status nor the body is touched. *)
Theorem headers_on_admission_only (lim : Options) (req : Request) (now : Z)
    (counts : gmap string (list Z)) (res : Response) :
  (nextCalled (turn (closure lim req now counts res)) = true →
     thrown (closure lim req now counts res) = None
     ∧ headers (response (turn (closure lim req now counts res)))
         !! "X-RateLimit-Limit"
       = Some (HNumber (default 100 (opt_maxRequests lim)))
     ∧ headers (response (turn (closure lim req now counts res)))
         !! "X-RateLimit-Remaining"
       = Some (HNumber (default 100 (opt_maxRequests lim)
                - (Z.of_nat (length (inWindow lim counts req now)) + 1)))
     ∧ headers (response (turn (closure lim req now counts res)))
         !! "X-RateLimit-Reset"
       = Some (HIsoString
                 (now + default (15 * 60 * 1000) (opt_windowMs lim))))
  ∧ (nextCalled (turn (closure lim req now counts res)) = false →
     thrown (closure lim req now counts res) = None →
       statusCode (response (turn (closure lim req now counts res))) = 429
       ∧ body (response (turn (closure lim req now counts res)))
         = Some (VObject
             [ ("success", VBool false);
               ("error",
                VString
                  (default
                     "Too many requests from this IP, please try again later."
                     (opt_message lim)));
               ("retryAfter",
                VString
                  (numberToString
                     (match head (inWindow lim counts req now) with
                      | Some oldest =>
                          Int (ceilDiv
                                 (oldest
                                  + default (15 * 60 * 1000)
                                      (opt_windowMs lim)
                                  - now) 1000)
                      | None => NaN
                      end)
                   +:+ " seconds")) ])
       ∧ headers (response (turn (closure lim req now counts res)))
         = headers res)
  ∧ (∀ error : JsValue,
       thrown (closure lim req now counts res) = Some error →
       error = rangeError
       ∧ ¬ (- 8640000000000000
            ≤ now + default (15 * 60 * 1000) (opt_windowMs lim)
            ≤ 8640000000000000)
       ∧ nextCalled (turn (closure lim req now counts res)) = false
       ∧ statusCode (response (turn (closure lim req now counts res)))
         = statusCode res
       ∧ body (response (turn (closure lim req now counts res))) = body res
       ∧ headers (response (turn (closure lim req now counts res)))
         = <["X-RateLimit-Remaining" :=
               HNumber (default 100 (opt_maxRequests lim)
                        - (Z.of_nat (length (inWindow lim counts req now))
                           + 1))]>
             (<["X-RateLimit-Limit" :=
                  HNumber (default 100 (opt_maxRequests lim))]>
                (headers res))).
Proof.
  rewrite closure_unfold.
  destruct (nextCalled (limiter lim req now counts res)) eqn:Hadm.
  - destruct (limiter_admission lim req now counts res Hadm) as [Hlt Hres].
    unfold maxRequestsOf, windowMsOf in *.
    destruct (isTimeValue _) eqn:Htime; cbn [andb negb turn thrown].
    + split; [|split; [intros Hrej; congruence|done]].
      intros _. rewrite Hres. simpl. split; [done|].
      split; [|split].
      * do 2 rewrite lookup_insert_ne by done. by rewrite lookup_insert_eq.
      * rewrite lookup_insert_ne by done. by rewrite lookup_insert_eq.
      * by rewrite lookup_insert_eq.
    + split; [done|]. split; [done|].
      intros error [= <-]. simpl. split; [done|]. split.
      { unfold isTimeValue, maxTimeValue in Htime.
        by apply bool_decide_eq_false_1 in Htime. }
      split; [done|]. split; [done|]. split; [done|].
      rewrite length_app. simpl. do 3 f_equal. lia.
  - cbn [andb turn thrown].
    split; [intros Hnext; congruence|]. split; [|done].
    intros _ _. by rewrite (limiter_rejection _ _ _ _ _ Hadm).
Qed.

Lemma headers_on_admission_only_witness :
  headers (response (turn (closure (quota 1000 2) (anon "10.0.0.1") 0 ∅
                             freshResponse))) !! "X-RateLimit-Limit"
  = Some (HNumber 2).
Proof.
  refine (proj1 (proj2 (proj1
    (headers_on_admission_only (quota 1000 2) (anon "10.0.0.1") 0 ∅
       freshResponse) _))).
  vm_compute. reflexivity.
Defined.

(** *** The rejection response *)

(** [ceilDiv x d] is the ceiling of the quotient [x / d]. *)
Lemma ceilDiv_spec (x d : Z) :
  0 < d → d * (ceilDiv x d - 1) < x ≤ d * ceilDiv x d.
Proof.
  intros Hd. unfold ceilDiv.
  pose proof (Z.div_mod (- x) d) as Hdm.
  pose proof (Z.mod_pos_bound (- x) d Hd) as Hbound.
  lia.
Qed.

(** In an array in chronological order the first timestamp that passes
    the filter is the oldest one that does. *)
Lemma head_filter_oldest (P : Z → Prop) `{!∀ t, Decision (P t)}
    (l : list Z) (oldest : Z) :
  StronglySorted Z.le l →
  head (filter P l) = Some oldest →
  Forall (λ t, oldest ≤ t) (filter P l).
Proof.
  induction 1 as [|t l Hsorted IH Hle]; [done|].
  rewrite filter_cons. case_decide as HP; [|done].
  simpl. intros [= ->]. apply Forall_cons; split; [lia|].
  apply Forall_forall. intros t' [_ Hin]%list_elem_of_filter.
  by eapply Forall_forall in Hle.
Qed.

(** With a clock that does not run backwards the client's array stays in
    chronological order. *)
Lemma chronological_preserved (lim : Options) (req : Request) (now : Z)
    (counts : gmap string (list Z)) (res : Response) :
  StronglySorted Z.le (default [] (counts !! client lim req)) →
  Forall (λ t, t ≤ now) (default [] (counts !! client lim req)) →
  StronglySorted Z.le
    (default [] (requestCounts (limiter lim req now counts res)
                   !! client lim req))
  ∧ Forall (λ t, t ≤ now)
      (default [] (requestCounts (limiter lim req now counts res)
                     !! client lim req)).
Proof.
  intros Hsorted Hpast.
  assert (StronglySorted Z.le (inWindow lim counts req now)
          ∧ Forall (λ t, t ≤ now) (inWindow lim counts req now))
    as [Hs Hp].
  { unfold inWindow, validRequests.
    induction (default [] (counts !! client lim req)) as [|t l IH]; [done|].
    apply StronglySorted_cons in Hsorted as [Hle Hsorted].
    apply Forall_cons in Hpast as [Ht Hpast].
    rewrite filter_cons. case_decide; [|by apply IH].
    destruct (IH Hsorted Hpast) as [IHs IHp].
    split; [|by apply Forall_cons]. apply StronglySorted_cons. split; [|done].
    apply Forall_forall. intros t' [_ Hin]%list_elem_of_filter.
    by eapply Forall_forall in Hle. }
  unfold limiter. rewrite middleware_unfold.
  fold (client lim req). fold (inWindow lim counts req now).
  case_bool_decide; simpl; rewrite lookup_insert_eq; simpl; [done|].
  split.
  - apply StronglySorted_app; repeat split; [|done|by repeat constructor].
    intros t1 t2 Ht1 ->%list_elem_of_singleton.
    by eapply Forall_forall in Hp.
  - apply Forall_app; split; [done|]. apply Forall_singleton. lia.
Qed.

(** Below 1e21 a number is rendered by its decimal digits. *)
Lemma numberToString_digits (n : Z) :
  Z.abs n < 1000000000000000000000 → numberToString (Int n) = pretty n.
Proof. intros Hn. unfold numberToString. by rewrite bool_decide_eq_true_2. Qed.

(** C8, as stated, fails.  A limiter with [maxRequests = 0] rejects the
    first request of a client: no timestamp remains in the window, there
    is no oldest one to compute from, and the body says [NaN seconds]. *)
Lemma retry_after_nan_counterexample :
  thrown (closure (quota 1000 0) (anon "10.0.0.1") 0 ∅ freshResponse) = None
  ∧ nextCalled
      (turn (closure (quota 1000 0) (anon "10.0.0.1") 0 ∅ freshResponse))
    = false
  ∧ inWindow (quota 1000 0) ∅ (anon "10.0.0.1") 0 = []
  ∧ statusCode
      (response
         (turn (closure (quota 1000 0) (anon "10.0.0.1") 0 ∅ freshResponse)))
    = 429
  ∧ body
      (response
         (turn (closure (quota 1000 0) (anon "10.0.0.1") 0 ∅ freshResponse)))
    = Some (VObject
        [ ("success", VBool false);
          ("error",
           VString "Too many requests from this IP, please try again later.");
          ("retryAfter", VString "NaN seconds") ]).
Proof.
  split; [by vm_compute|]. split; [by vm_compute|]. split; [by vm_compute|].
  split; by vm_compute.
Qed.

(** C8, amended.  On every rejection the response has status 429 and the
    JSON body [{success: false, error: message, retryAfter: "<n> seconds"}],
    in which [message] is the configured one, or the default text when
    none is configured, and [n] is computed from the first of the client's
    in-window timestamps, [n = ceil((first + windowMs - now) / 1000)], and
    is [NaN] when there is none.  When there is one, [n] is at least 1 and
    is rendered by its decimal digits below 1e21, and the first timestamp
    is the oldest when the array is in chronological order.  There is one
    at every rejection by a limiter whose [maxRequests] is at least 1.
    End to end, with [maxRequests = 2] and [windowMs = 60000], three rapid
    calls are admitted, admitted and rejected, and the rejection says
    [60 seconds]; the exported [auth] limiter rejects with its own
    message. *)
Theorem rejection_response :
  (∀ (lim : Options) (req : Request) (now : Z)
     (counts : gmap string (list Z)) (res : Response),
     thrown (closure lim req now counts res) = None →
     nextCalled (turn (closure lim req now counts res)) = false →
     statusCode (response (turn (closure lim req now counts res))) = 429
     ∧ body (response (turn (closure lim req now counts res)))
       = Some (VObject
           [ ("success", VBool false);
             ("error",
              VString
                (default
                   "Too many requests from this IP, please try again later."
                   (opt_message lim)));
             ("retryAfter",
              VString
                (numberToString
                   (match head (inWindow lim counts req now) with
                    | Some oldest =>
                        Int (ceilDiv
                               (oldest
                                + default (15 * 60 * 1000) (opt_windowMs lim)
                                - now) 1000)
                    | None => NaN
                    end)
                 +:+ " seconds")) ])
     ∧ (∀ oldest : Z,
          head (inWindow lim counts req now) = Some oldest →
          1000 * (ceilDiv
                    (oldest + default (15 * 60 * 1000) (opt_windowMs lim)
                     - now) 1000 - 1)
            < oldest + default (15 * 60 * 1000) (opt_windowMs lim) - now
            ≤ 1000 * ceilDiv
                       (oldest + default (15 * 60 * 1000) (opt_windowMs lim)
                        - now) 1000
          ∧ 1 ≤ ceilDiv
                  (oldest + default (15 * 60 * 1000) (opt_windowMs lim)
                   - now) 1000
          ∧ (ceilDiv
               (oldest + default (15 * 60 * 1000) (opt_windowMs lim) - now)
               1000 < 1000000000000000000000 →
             numberToString
               (Int (ceilDiv
                       (oldest + default (15 * 60 * 1000) (opt_windowMs lim)
                        - now) 1000))
             = pretty
                 (ceilDiv
                    (oldest + default (15 * 60 * 1000) (opt_windowMs lim)
                     - now) 1000))
          ∧ (StronglySorted Z.le (default [] (counts !! client lim req)) →
             Forall (λ t, oldest ≤ t) (inWindow lim counts req now)))
     ∧ (1 ≤ default 100 (opt_maxRequests lim) →
        is_Some (head (inWindow lim counts req now))))
  ∧ map (λ run, (thrown run, nextCalled (turn run)))
      (invocations (quota 60000 2) (anon "10.0.0.1") [0; 1; 2] ∅)
    = [(None, true); (None, true); (None, false)]
  ∧ (body ∘ response ∘ turn)
      <$> invocations (quota 60000 2) (anon "10.0.0.1") [0; 1; 2] ∅ !! 2%nat
    = Some (Some (VObject
        [ ("success", VBool false);
          ("error",
           VString "Too many requests from this IP, please try again later.");
          ("retryAfter", VString "60 seconds") ]))
  ∧ body
      (response
         (turn (closure auth (anon "10.0.0.1") 1000
                  {["10.0.0.1" := replicate 30 0]} freshResponse)))
    = Some (VObject
        [ ("success", VBool false);
          ("error",
           VString
             "Too many authentication attempts. Please try again later.");
          ("retryAfter", VString "899 seconds") ]).
Proof.
  split; [|split; [by vm_compute|split; by vm_compute]].
  intros lim req now counts res.
  rewrite closure_unfold.
  destruct (nextCalled (limiter lim req now counts res)) eqn:Hrej.
  { destruct (isTimeValue _); cbn [andb negb turn thrown nextCalled];
      intros Hthrown Hnext; congruence. }
  cbn [andb turn thrown]. intros _ _.
  rewrite (limiter_rejection _ _ _ _ _ Hrej).
  apply rejected_iff in Hrej as Hquota.
  fold (client lim req) in Hquota. fold (inWindow lim counts req now) in Hquota.
  unfold maxRequestsOf in Hquota.
  split; [done|]. split; [done|]. split.
  - intros oldest Hhead.
    pose proof (ceilDiv_spec
                  (oldest + default (15 * 60 * 1000) (opt_windowMs lim) - now)
                  1000) as Hceil.
    assert (oldest > now - default (15 * 60 * 1000) (opt_windowMs lim))
      as Hin.
    { apply head_Some in Hhead as [l Hl].
      assert (oldest ∈ inWindow lim counts req now) as Hel
        by (rewrite Hl; left).
      unfold inWindow, validRequests, windowStart, windowMsOf in Hel.
      by apply list_elem_of_filter in Hel as [? _]. }
    split; [lia|]. split; [lia|]. split.
    + intros Hsmall. apply numberToString_digits. lia.
    + intros Hsorted. by apply head_filter_oldest.
  - intros Hpos. apply head_is_Some. intros Hnil.
    rewrite Hnil in Hquota. simpl in Hquota. lia.
Qed.

Lemma rejection_response_witness :
  statusCode
    (response
       (turn (closure (quota 60000 2) (anon "10.0.0.1") 2
                {["10.0.0.1" := [0; 1]]} freshResponse)))
  = 429.
Proof.
  refine (proj1 (proj1 rejection_response (quota 60000 2) (anon "10.0.0.1") 2
                   {["10.0.0.1" := [0; 1]]} freshResponse _ _)).
  - vm_compute. reflexivity.
  - vm_compute. reflexivity.
Defined.

End rateLimiterSpec.

(** * Properties of the cache service *)

Module cacheServiceSpec.
Import cacheService scenarios.

Lemma set_lookup this key v ttl nowE nowC :
  cache (set key v ttl nowE nowC this) !! key
  = Some (written this v ttl nowE nowC).
Proof. unfold set. simpl. by rewrite lookup_insert_eq. Qed.

Lemma set_lookup_ne this key key' v ttl nowE nowC :
  key ≠ key' →
  cache (set key v ttl nowE nowC this) !! key' = cache this !! key'.
Proof. intros Hne. unfold set. simpl. by rewrite lookup_insert_ne. Qed.

Lemma get_expired this key item now :
  cache this !! key = Some item → now > expiresAt item →
  get key now this = (VNull, withCache this (base.delete key (cache this))).
Proof. intros Hitem Hexp. unfold get. rewrite Hitem. by case_bool_decide. Qed.

Lemma get_live this key item now :
  cache this !! key = Some item → ¬ now > expiresAt item →
  get key now this = (value item, this).
Proof. intros Hitem Hexp. unfold get. rewrite Hitem. by case_bool_decide. Qed.

Lemma get_missing this key now :
  cache this !! key = None → get key now this = (VNull, this).
Proof. intros Hitem. unfold get. by rewrite Hitem. Qed.

(** *** Lazy expiry *)

(** C6.  When [now] is past the [expiresAt] of the entry of a key, [get]
    returns the absent sentinel [null] and [has] returns [false], and
    each of them has removed the entry from the map (and nothing else);
    no call of [cleanExpired] is involved. *)
Theorem lazy_expiry (this : CacheService) (key : string) (item : CacheItem)
    (now : Z) :
  cache this !! key = Some item →
  now > expiresAt item →
  get key now this = (VNull, withCache this (base.delete key (cache this)))
  ∧ has key now this = (false, withCache this (base.delete key (cache this)))
  ∧ cache (get key now this).2 !! key = None
  ∧ cache (has key now this).2 !! key = None
  ∧ (∀ key', key' ≠ key →
       cache (get key now this).2 !! key' = cache this !! key'
       ∧ cache (has key now this).2 !! key' = cache this !! key').
Proof.
  intros Hitem Hexp.
  assert (has key now this
          = (false, withCache this (base.delete key (cache this)))) as Hhas.
  { unfold has. rewrite Hitem. by case_bool_decide. }
  rewrite Hhas, (get_expired _ _ _ _ Hitem Hexp). simpl.
  rewrite lookup_delete_eq. repeat split; by rewrite lookup_delete_ne.
Qed.

(** An entry set at 0 with a [ttl] of 1000 and read at 1001. *)
Lemma lazy_expiry_witness :
  get "k" 1001 (set "k" (VString "v") (Some 1000) 0 0 fresh)
  = (VNull, fresh).
Proof.
  destruct (lazy_expiry (set "k" (VString "v") (Some 1000) 0 0 fresh) "k"
              (written fresh (VString "v") (Some 1000) 0 0) 1001)
    as [Hget _].
  - reflexivity.
  - reflexivity.
  - rewrite Hget. reflexivity.
Defined.

(** *** The sweep *)

(** The loop removes the keys of the expired entries it has visited and
    touches no other key. *)
Lemma cleanExpired_loop_lookup now (l : list (string * CacheItem)) :
  ∀ (acc : Z * gmap string CacheItem) (key : string),
    (foldl (cleanExpiredStep now) acc l).2 !! key
    = if decide (key ∈ (filter (isExpired now) l).*1) then None
      else acc.2 !! key.
Proof.
  induction l as [|e l IH]; intros acc key; [done|].
  cbn [foldl]. rewrite IH, filter_cons. unfold cleanExpiredStep.
  fold (isExpired now e).
  destruct (decide (isExpired now e)) as [He|He].
  - rewrite (bool_decide_eq_true_2 _ He), fmap_cons. simpl.
    destruct (decide (key = e.1)) as [->|Hne].
    + rewrite lookup_delete_eq.
      destruct (decide (e.1 ∈ e.1 :: (filter (isExpired now) l).*1))
        as [_|Hout]; [by case_decide|].
      exfalso. apply Hout, elem_of_cons. by left.
    + rewrite lookup_delete_ne by done.
      destruct (decide (key ∈ (filter (isExpired now) l).*1)) as [Hin|Hin];
        destruct (decide (key ∈ e.1 :: (filter (isExpired now) l).*1))
          as [Hin'|Hin']; try done.
      * exfalso. apply Hin', elem_of_cons. by right.
      * apply elem_of_cons in Hin' as [?|?]; done.
  - by rewrite (bool_decide_eq_false_2 _ He).
Qed.

(** Each removal makes the map one entry smaller, so the counter and the
    size of the map add up to a constant. *)
Lemma cleanExpired_loop_count now (l : list (string * CacheItem)) :
  ∀ (acc : Z * gmap string CacheItem),
    NoDup l.*1 →
    Forall (λ e, is_Some (acc.2 !! e.1)) l →
    (foldl (cleanExpiredStep now) acc l).1
    + Z.of_nat (size (foldl (cleanExpiredStep now) acc l).2)
    = acc.1 + Z.of_nat (size acc.2).
Proof.
  induction l as [|e l IH]; intros acc Hnodup Hin; simpl; [done|].
  rewrite fmap_cons in Hnodup. apply NoDup_cons in Hnodup as [Hfresh Hnodup].
  apply Forall_cons in Hin as [[item He] Hin].
  rewrite IH; [|done|].
  - unfold cleanExpiredStep. case_bool_decide; simpl; [|done].
    rewrite map_size_delete_Some by eauto.
    assert (size acc.2 ≠ 0%nat); [|lia].
    intros Hz. apply map_size_empty_inv in Hz.
    rewrite Hz, lookup_empty in He. done.
  - clear IH. apply Forall_forall. intros e' He'.
    assert (is_Some (acc.2 !! e'.1)) as Hsome
      by (by eapply Forall_forall in Hin).
    unfold cleanExpiredStep. case_bool_decide; simpl; [|done].
    rewrite lookup_delete_ne; [done|]. intros Heq.
    apply Hfresh. rewrite Heq. apply list_elem_of_fmap. eauto.
Qed.

Lemma expired_visited now (m : gmap string CacheItem) (key : string) :
  key ∈ (filter (isExpired now) (map_to_list m)).*1
  ↔ ∃ item, m !! key = Some item ∧ expiresAt item < now.
Proof.
  rewrite list_elem_of_fmap. split.
  - intros [[k item] [-> [Hexp Hin]%list_elem_of_filter]].
    apply elem_of_map_to_list in Hin. exists item.
    unfold isExpired in Hexp. simpl in *. split; [done|lia].
  - intros [item [Hitem Hexp]]. exists (key, item). split; [done|].
    apply list_elem_of_filter. split.
    + unfold isExpired. simpl. lia.
    + by apply elem_of_map_to_list.
Qed.

Lemma cleanExpired_lookup now this key :
  cache (cleanExpired now this).2 !! key
  = match cache this !! key with
    | Some item => if decide (expiresAt item < now) then None else Some item
    | None => None
    end.
Proof.
  unfold cleanExpired.
  pose proof (cleanExpired_loop_lookup now (map_to_list (cache this))
                (0, cache this) key) as Hloop.
  destruct (foldl (cleanExpiredStep now) (0, cache this)
              (map_to_list (cache this))) as [removed c].
  simpl in *. rewrite Hloop. clear Hloop.
  case_decide as Hin.
  - apply expired_visited in Hin as [item [-> Hexp]]. by rewrite decide_True.
  - destruct (cache this !! key) as [item|] eqn:Hitem; [|done].
    rewrite decide_False; [done|]. intros Hexp.
    apply Hin, expired_visited. eauto.
Qed.

(** C7.  [cleanExpired] removes exactly the entries whose [expiresAt] is
    before [now]: afterwards a key maps to what it mapped to before unless
    its entry had [expiresAt < now], in which case it maps to nothing; so
    the map that is left is the old one restricted to the entries that
    are not expired, each with its value, [createdAt] and [expiresAt].
    The number returned is the number of entries removed, which is the
    number of entries that had [expiresAt < now]. *)
Theorem cleanExpired_exact (now : Z) (this : CacheService) :
  (∀ key : string,
     cache (cleanExpired now this).2 !! key
     = match cache this !! key with
       | Some item =>
           if decide (expiresAt item < now) then None else Some item
       | None => None
       end)
  ∧ cache (cleanExpired now this).2
    = filter (λ entry, ¬ expiresAt entry.2 < now) (cache this)
  ∧ defaultTTL (cleanExpired now this).2 = defaultTTL this
  ∧ (cleanExpired now this).1
    = Z.of_nat (size (cache this))
      - Z.of_nat (size (cache (cleanExpired now this).2))
  ∧ (cleanExpired now this).1
    = Z.of_nat (size (filter (λ entry, expiresAt entry.2 < now)
                        (cache this))).
Proof.
  assert (cache (cleanExpired now this).2
          = filter (λ entry, ¬ expiresAt entry.2 < now) (cache this))
    as Hfilter.
  { apply map_eq. intros key.
    rewrite cleanExpired_lookup, map_lookup_filter.
    destruct (cache this !! key) as [item|]; [|done]. simpl.
    destruct (decide (expiresAt item < now)) as [Hexp|Hexp].
    - by rewrite option_guard_False by (simpl; lia).
    - by rewrite option_guard_True. }
  assert ((cleanExpired now this).1
          = Z.of_nat (size (cache this))
            - Z.of_nat (size (cache (cleanExpired now this).2)))
    as Hcount.
  { unfold cleanExpired.
    assert (Forall (λ e : string * CacheItem, is_Some (cache this !! e.1))
              (map_to_list (cache this))) as Hpresent.
    { apply Forall_forall. intros [k item] Hin. simpl.
      apply elem_of_map_to_list in Hin. eauto. }
    pose proof (cleanExpired_loop_count now (map_to_list (cache this))
                  (0, cache this) (NoDup_fst_map_to_list _) Hpresent)
      as Hloop.
    destruct (foldl (cleanExpiredStep now) (0, cache this)
                (map_to_list (cache this))) as [removed c].
    simpl in *. lia. }
  split; [apply cleanExpired_lookup|]. split; [done|].
  split; [unfold cleanExpired; by destruct (foldl _ _ _)|].
  split; [done|].
  rewrite Hcount, Hfilter.
  rewrite <- (map_filter_union_complement
                (λ entry, expiresAt entry.2 < now) (cache this)) at 1.
  rewrite map_size_disj_union by apply map_disjoint_filter_complement.
  lia.
Qed.

(** *** Cache-aside reads *)

Section getOrSet.
Context {S : Type}.
Implicit Types (f g : @Supplier S) (w : CacheService * S).

Lemma getOrSet_hit key f ttl nowG nowE nowC w item :
  cache w.1 !! key = Some item →
  ¬ nowG > expiresAt item →
  value item ≠ VNull →
  getOrSet key f ttl nowG nowE nowC w = (Normal (value item), w).
Proof.
  intros Hitem Hlive Hval. unfold getOrSet.
  rewrite (get_live _ _ _ _ Hitem Hlive).
  destruct (value item), w; done.
Qed.

(** When [get] answers [null] the supplier runs, on the cache that [get]
    left, and its result is stored. *)
Lemma getOrSet_miss key f ttl nowG nowE nowC w :
  (get key nowG w.1).1 = VNull →
  getOrSet key f ttl nowG nowE nowC w
  = match f ((get key nowG w.1).2, w.2) with
    | (Normal v, w') =>
        (Normal v,
         (set key v (Some (default (defaultTTL w.1) ttl)) nowE nowC w'.1,
          w'.2))
    | (Throw e, w') => (Throw e, w')
    end.
Proof.
  intros Hnull. unfold getOrSet.
  destruct (get key nowG w.1) as [cached this1]. simpl in *. subst cached.
  simpl. by destruct (f (this1, w.2)) as [[v|e] [this2 s2]].
Qed.

Lemma get_null_of_no_live_entry key now this :
  (cache this !! key = None
   ∨ ∃ item, cache this !! key = Some item ∧ now > expiresAt item) →
  (get key now this).1 = VNull.
Proof.
  intros [Hnone|[item [Hitem Hexp]]].
  - by rewrite get_missing.
  - by rewrite (get_expired _ _ _ _ Hitem Hexp).
Qed.
End getOrSet.

(** C3, as stated, fails for the stored value [null].  The supplier
    resolves to [null]; the first call stores it, at the second call one
    millisecond later the entry is live ([has] answers [true]), and the
    supplier is invoked a second time all the same. *)
Lemma null_is_refetched_counterexample :
  (firstCall VNull).2.2 = 1%nat
  ∧ cache (firstCall VNull).2.1 !! "k"
    = Some {| value := VNull; expiresAt := 1000; createdAt := 0 |}
  ∧ (has "k" 1 (firstCall VNull).2.1).1 = true
  ∧ (secondCall VNull).2.2 = 2%nat.
Proof. repeat split; by vm_compute. Qed.

(** [get] answers [null] in each of the three cases in which no live entry
    with a value other than [null] exists. *)
Lemma get_null_of_no_hit key now this :
  (cache this !! key = None
   ∨ (∃ item, cache this !! key = Some item ∧ now > expiresAt item)
   ∨ (∃ item, cache this !! key = Some item ∧ ¬ now > expiresAt item
              ∧ value item = VNull)) →
  (get key now this).1 = VNull.
Proof.
  intros [Hnone|[[item [Hitem Hexp]]|[item (Hitem & Hlive & Hnull)]]].
  - by rewrite get_missing.
  - by rewrite (get_expired _ _ _ _ Hitem Hexp).
  - by rewrite (get_live _ _ _ _ Hitem Hlive).
Qed.

(** C3, amended.  (1) If a live entry with a value other than [null]
    exists, [getOrSet] returns that value and changes nothing: the
    supplier is not invoked.  (2) In every other case, which is no entry,
    an expired entry, or a live entry holding [null], it invokes the
    supplier on the cache that [get] left and, when the supplier resolves,
    stores the result under the key with [expiresAt] the given [ttl],
    or the default one, after the reading of the clock, and returns it.
    (3) For every stored value other than [null], a second call within
    [ttl] of the first returns the value and does not invoke the supplier
    again.  (4) With a [ttl] of 1000 and two calls one millisecond apart
    the supplier has been invoked once when it resolves to a string, and
    twice when it resolves to [null]. *)
Theorem getOrSet_cache_aside :
  (∀ (S : Type) (key : string) (f : @Supplier S) (ttl : option Z)
     (nowG nowE nowC : Z) (w : CacheService * S) (item : CacheItem),
     cache w.1 !! key = Some item →
     ¬ nowG > expiresAt item →
     value item ≠ VNull →
     getOrSet key f ttl nowG nowE nowC w = (Normal (value item), w))
  ∧ (∀ (S : Type) (key : string) (f : @Supplier S) (ttl : option Z)
       (nowG nowE nowC : Z) (w w' : CacheService * S) (v : JsValue),
       (cache w.1 !! key = None
        ∨ (∃ item, cache w.1 !! key = Some item ∧ nowG > expiresAt item)
        ∨ (∃ item, cache w.1 !! key = Some item ∧ ¬ nowG > expiresAt item
                   ∧ value item = VNull)) →
       f ((get key nowG w.1).2, w.2) = (Normal v, w') →
       getOrSet key f ttl nowG nowE nowC w
       = (Normal v,
          (set key v (Some (default (defaultTTL w.1) ttl)) nowE nowC w'.1,
           w'.2))
       ∧ cache (getOrSet key f ttl nowG nowE nowC w).2.1 !! key
         = Some {| value := v;
                   expiresAt := nowE + default (defaultTTL w.1) ttl;
                   createdAt := nowC |})
  ∧ (∀ (S : Type) (key : string) (f g : @Supplier S) (ttl ttl' : option Z)
       (nowG nowE nowC nowG' nowE' nowC' : Z) (w w1 : CacheService * S)
       (v : JsValue),
       (get key nowG w.1).1 = VNull →
       getOrSet key f ttl nowG nowE nowC w = (Normal v, w1) →
       v ≠ VNull →
       nowG' ≤ nowE + default (defaultTTL w.1) ttl →
       getOrSet key g ttl' nowG' nowE' nowC' w1 = (Normal v, w1))
  ∧ ((firstCall (VString "v")).1 = Normal (VString "v")
     ∧ (secondCall (VString "v")).1 = Normal (VString "v")
     ∧ (secondCall (VString "v")).2.2 = 1%nat)
  ∧ ((firstCall VNull).1 = Normal VNull
     ∧ (secondCall VNull).1 = Normal VNull
     ∧ (secondCall VNull).2.2 = 2%nat).
Proof.
  split; [|split; [|split; [|split]]].
  - intros S. apply getOrSet_hit.
  - intros S key f ttl nowG nowE nowC w w' v Hmiss Hf.
    rewrite getOrSet_miss by by apply get_null_of_no_hit.
    rewrite Hf. split; [done|]. simpl. by rewrite lookup_insert_eq.
  - intros S key f g ttl ttl' nowG nowE nowC nowG' nowE' nowC' w w1 v
      Hmiss Hfirst Hv Hlate.
    rewrite getOrSet_miss in Hfirst by done.
    destruct (f ((get key nowG w.1).2, w.2)) as [[v'|e] w'] eqn:Hf; [|done].
    injection Hfirst as -> <-.
    apply (getOrSet_hit key g ttl' nowG' nowE' nowC' _
             (written w'.1 v (Some (default (defaultTTL w.1) ttl)) nowE nowC)).
    + apply set_lookup.
    + simpl. lia.
    + done.
  - repeat split; by vm_compute.
  - repeat split; by vm_compute.
Qed.

(** A live entry that holds [null]: the supplier is invoked, and its
    result replaces the entry. *)
Lemma getOrSet_cache_aside_witness :
  getOrSet "k" (countingSupplier (VString "v")) (Some 1000) 1 1 1
    (set "k" VNull (Some 1000) 0 0 fresh, 0%nat)
  = (Normal (VString "v"),
     (set "k" (VString "v") (Some 1000) 1 1
        (set "k" VNull (Some 1000) 0 0 fresh),
      1%nat)).
Proof.
  refine (proj1 (proj1 (proj2 getOrSet_cache_aside) nat "k"
            (countingSupplier (VString "v")) (Some 1000) 1 1 1
            (set "k" VNull (Some 1000) 0 0 fresh, 0%nat)
            (set "k" VNull (Some 1000) 0 0 fresh, 1%nat)
            (VString "v") _ _)).
  - right. right.
    exists {| value := VNull; expiresAt := 1000; createdAt := 0 |}.
    split; [by vm_compute|]. split; [simpl; lia|reflexivity].
  - reflexivity.
Defined.

(** *** Stored [null] *)

Lemma get_nullish key now this :
  nullish key this →
  (get key now this).1 = VNull ∧ nullish key (get key now this).2.
Proof.
  unfold nullish, get. destruct (cache this !! key) as [item|] eqn:Hitem.
  - intros Hnull. case_bool_decide; simpl.
    + by rewrite lookup_delete_eq.
    + by rewrite Hitem.
  - simpl. by rewrite Hitem.
Qed.

Lemma null_supplier_always_runs key ttl (times : list Z) :
  ∀ (this : CacheService) (n : nat),
    nullish key this →
    (getOrSetEach key (countingSupplier VNull) ttl times (this, n)).2
    = (n + length times)%nat.
Proof.
  induction times as [|now times IH]; intros this n Hnull; simpl; [lia|].
  destruct (get_nullish key now this Hnull) as [Hget _].
  rewrite getOrSet_miss by done. simpl.
  rewrite IH; [lia|]. unfold nullish. simpl. by rewrite lookup_insert_eq.
Qed.

(** C10.  A stored [null] is taken for absence.  (1) While an entry whose
    value is [null] is live, [get] returns [null] and leaves the entry in
    place, [has] returns [true], and [getOrSet] invokes the supplier on
    the unchanged cache and stores what it resolves to.  (2) Such an entry
    is what [set(key, null, ttl)] writes and what [getOrSet] writes when
    the supplier resolves to [null].  (3) After [set(key, null, ttl)],
    every one of any number of subsequent [getOrSet] calls whose supplier
    resolves to [null] invokes the supplier. *)
Theorem stored_null_is_absent :
  (∀ (this : CacheService) (key : string) (item : CacheItem) (now : Z),
     cache this !! key = Some item →
     value item = VNull →
     ¬ now > expiresAt item →
     get key now this = (VNull, this)
     ∧ has key now this = (true, this)
     ∧ ∀ (S : Type) (f : @Supplier S) (ttl : option Z) (nowE nowC : Z)
         (s : S),
         getOrSet key f ttl now nowE nowC (this, s)
         = match f (this, s) with
           | (Normal v, w') =>
               (Normal v,
                (set key v (Some (default (defaultTTL this) ttl)) nowE nowC
                   w'.1, w'.2))
           | (Throw e, w') => (Throw e, w')
           end)
  ∧ (∀ (this : CacheService) (key : string) (ttl : option Z)
       (nowE nowC : Z),
       cache (set key VNull ttl nowE nowC this) !! key
       = Some {| value := VNull;
                 expiresAt := nowE + default (defaultTTL this) ttl;
                 createdAt := nowC |})
  ∧ (∀ (this : CacheService) (key : string) (ttl : option Z)
       (nowG nowE nowC : Z) (n : nat),
       (get key nowG this).1 = VNull →
       cache (getOrSet key (countingSupplier VNull) ttl nowG nowE nowC
                (this, n)).2.1 !! key
       = Some {| value := VNull;
                 expiresAt := nowE + default (defaultTTL this) ttl;
                 createdAt := nowC |})
  ∧ (∀ (this : CacheService) (key : string) (ttl ttl' : option Z)
       (nowE nowC : Z) (times : list Z) (n : nat),
       (getOrSetEach key (countingSupplier VNull) ttl' times
          (set key VNull ttl nowE nowC this, n)).2
       = (n + length times)%nat).
Proof.
  split; [|split; [|split]].
  - intros this key item now Hitem Hnull Hlive.
    assert (get key now this = (VNull, this)) as Hget.
    { rewrite (get_live _ _ _ _ Hitem Hlive). by rewrite Hnull. }
    split; [done|]. split.
    + unfold has. rewrite Hitem. by case_bool_decide.
    + intros S f ttl nowE nowC s.
      rewrite getOrSet_miss by (simpl; by rewrite Hget).
      simpl. by rewrite Hget.
  - intros. apply set_lookup.
  - intros this key ttl nowG nowE nowC n Hget.
    rewrite getOrSet_miss by done. simpl. by rewrite lookup_insert_eq.
  - intros this key ttl ttl' nowE nowC times n.
    apply null_supplier_always_runs.
    unfold nullish. by rewrite set_lookup.
Qed.

(** [null] stored at 0 for 1000 milliseconds, read at 1. *)
Lemma stored_null_is_absent_witness :
  get "k" 1 (set "k" VNull (Some 1000) 0 0 fresh)
  = (VNull, set "k" VNull (Some 1000) 0 0 fresh)
  ∧ has "k" 1 (set "k" VNull (Some 1000) 0 0 fresh)
    = (true, set "k" VNull (Some 1000) 0 0 fresh).
Proof.
  destruct (proj1 stored_null_is_absent
              (set "k" VNull (Some 1000) 0 0 fresh) "k"
              (written fresh VNull (Some 1000) 0 0) 1)
    as (Hget & Hhas & _).
  - reflexivity.
  - reflexivity.
  - vm_compute. congruence.
  - by split.
Defined.

End cacheServiceSpec.

(** * Configuration *)

Module configurationSpec.
Import scenarios rateLimiterSpec cacheServiceSpec.





End configurationSpec.

(** * Further properties of the rate limiter *)

Module rateLimiterRuns.
Import rateLimiter scenarios runs rateLimiterSpec.

Lemma filter_twice (a b : Z) (l : list Z) :
  a ≤ b →
  filter (λ t, t > b) (filter (λ t, t > a) l) = filter (λ t, t > b) l.
Proof.
  intros Hab. rewrite list_filter_filter. apply list_filter_iff.
  intros t. lia.
Qed.

Lemma length_filter_mono (P Q : Z → Prop) `{!∀ t, Decision (P t)}
    `{!∀ t, Decision (Q t)} (l : list Z) :
  (∀ t, t ∈ l → P t → Q t) →
  (length (filter P l) ≤ length (filter Q l))%nat.
Proof.
  induction l as [|t l IH]; intros Himp; [done|].
  rewrite !filter_cons.
  assert ((length (filter P l) ≤ length (filter Q l))%nat) as Hle.
  { apply IH. intros t' Hin. apply Himp. by right. }
  destruct (decide (P t)) as [HP|HP].
  - rewrite decide_True by (apply Himp; [by left|done]). simpl. lia.
  - destruct (decide (Q t)); simpl; lia.
Qed.

Section quota.
Variables (cid : string) (w m : Z).

Lemma faithful_later tlast tnext counts counts' adm :
  tlast ≤ tnext →
  counts' !! cid = counts !! cid →
  faithful cid w m tlast counts adm → faithful cid w m tnext counts' adm.
Proof.
  intros Hle Hsame (Hsee & Hpast & Hbound). split; [|split; [|done]].
  - intros now Hnow. rewrite Hsame. apply Hsee. lia.
  - eapply Forall_impl; [exact Hpast|]. simpl. intros; lia.
Qed.

Lemma faithful_event e tlast counts adm :
  governed cid w m e →
  tlast ≤ timeOf e →
  faithful cid w m tlast counts adm →
  faithful cid w m (timeOf e) (occur e counts) (adm ++ admitted cid [e] counts).
Proof.
  intros Hgov Htime Hinv. destruct e as [c|ts]; simpl in *.
  - destruct (decide (clientOf c = cid)) as [Heq|Hne].
    + destruct (Hgov Heq) as [Hw Hm]. destruct Hinv as (Hsee & Hpast & Hbound).
      rewrite (bool_decide_eq_true_2 _ Heq). simpl.
      assert (validRequests w counts cid (at_ c)
              = filter (λ t, t > at_ c - w) adm) as Hvalid.
      { unfold validRequests, windowStart. by apply Hsee. }
      unfold handle, limiter in *. unfold clientOf in Heq. rewrite Hw in *.
      destruct (nextCalled (middleware w _ _ _ _ _ counts _)) eqn:Hnext.
      * apply admitted_counts in Hnext as Hcounts.
        apply admitted_iff in Hnext as Hroom.
        rewrite Heq, Hvalid in Hcounts, Hroom. unfold faithful.
        rewrite Hcounts, lookup_insert_eq. simpl. split; [|split].
        -- intros now Hnow. rewrite !filter_app. f_equal.
           apply filter_twice. lia.
        -- apply Forall_app; split; [|by apply Forall_singleton].
           eapply Forall_impl; [exact Hpast|]. simpl. intros; lia.
        -- intros T. unfold inWindowAt. rewrite filter_app, length_app.
           destruct (decide (T < at_ c)) as [Hbefore|Hafter].
           ++ rewrite filter_cons_False by lia. simpl.
              specialize (Hbound T). unfold inWindowAt in Hbound. lia.
           ++ pose proof (length_filter_mono (λ t, T - w < t ∧ t ≤ T)
                            (λ t, t > at_ c - w) adm) as Hmono.
              pose proof (length_filter (λ t, T - w < t ∧ t ≤ T) [at_ c])
                as Hone.
              change (length [at_ c]) with 1%nat in Hone.
              assert (∀ t, t ∈ adm → T - w < t ∧ t ≤ T → t > at_ c - w)
                as Himp by (intros; lia).
              specialize (Hmono Himp). lia.
      * apply rejected_counts in Hnext as Hcounts.
        rewrite Heq, Hvalid in Hcounts. unfold faithful.
        rewrite Hcounts, app_nil_r, lookup_insert_eq. simpl.
        split; [|split; [|done]].
        -- intros now Hnow. apply filter_twice. lia.
        -- eapply Forall_impl; [exact Hpast|]. simpl. intros; lia.
    + rewrite (bool_decide_eq_false_2 _ Hne). simpl. rewrite app_nil_r.
      apply (faithful_later tlast _ counts); [done| |done].
      unfold handle, limiter. apply other_client_untouched.
      intros ->. by apply Hne.
  - rewrite app_nil_r. destruct Hinv as (Hsee & Hpast & Hbound).
    split; [|split; [|done]].
    + intros now Hnow. unfold maxAge in *.
      rewrite sweep_default, filter_twice by (unfold maxAge; lia).
      apply Hsee. lia.
    + eapply Forall_impl; [exact Hpast|]. simpl. intros; lia.
Qed.

Lemma admitted_cons e events counts :
  admitted cid (e :: events) counts
  = admitted cid [e] counts ++ admitted cid events (occur e counts).
Proof. simpl. by rewrite app_nil_r. Qed.

Lemma faithful_run events : ∀ tlast counts adm,
  Forall (governed cid w m) events →
  Forall (λ e, tlast ≤ timeOf e) events →
  StronglySorted Z.le (timeOf <$> events) →
  faithful cid w m tlast counts adm →
  ∃ tend, faithful cid w m tend (countsAfter events counts)
            (adm ++ admitted cid events counts).
Proof.
  induction events as [|e events IH];
    intros tlast counts adm Hgov Hfrom Hsorted Hinv.
  { exists tlast. simpl. by rewrite app_nil_r. }
  apply Forall_cons in Hgov as [Hgov Hgovs].
  apply Forall_cons in Hfrom as [Hfrom _].
  rewrite fmap_cons in Hsorted.
  apply StronglySorted_cons in Hsorted as [Hnext Hsorted].
  rewrite countsAfter_cons, admitted_cons, app_assoc.
  apply (IH (timeOf e)); [done| |done|by apply (faithful_event e tlast)].
  apply Forall_forall. intros e' He'.
  eapply Forall_forall in Hnext; [exact Hnext|].
  apply list_elem_of_fmap. eauto.
Qed.
End quota.

(** X1.  The quota holds over every window.  In a run whose clock does not
    go backwards, for a client that starts without recorded timestamps and
    whose requests pass through limiters of window length [w] and of quota
    at most [m], with the cleanup running at any time provided [w] does not
    exceed the retention horizon: whatever instant [T] one picks, at most
    [m] of the client's admitted requests carry a timestamp in
    [(T - w, T]]. *)
Theorem quota_never_exceeded (cid : string) (w m : Z) (events : list Event)
    (counts : gmap string (list Z)) (T : Z) :
  0 ≤ m →
  Forall (governed cid w m) events →
  StronglySorted Z.le (timeOf <$> events) →
  default [] (counts !! cid) = [] →
  Z.of_nat (length (inWindowAt w T (admitted cid events counts))) ≤ m.
Proof.
  intros Hm Hgov Hsorted Hempty.
  destruct events as [|e events]; [simpl; lia|].
  destruct (faithful_run cid w m (e :: events) (timeOf e) counts [])
    as [tend (_ & _ & Hbound)]; [done| |done| |by apply Hbound].
  - rewrite fmap_cons in Hsorted.
    apply StronglySorted_cons in Hsorted as [Hnext _].
    apply Forall_cons; split; [done|].
    apply Forall_forall. intros e' He'.
    eapply Forall_forall in Hnext; [exact Hnext|].
    apply list_elem_of_fmap. eauto.
  - split; [|split; [done|]].
    + intros now _. by rewrite Hempty.
    + intros T'. simpl. lia.
Qed.

(** Five requests within 1.1 seconds, a cleanup in between, against a quota
    of two per second: at most two admissions in the window ending at
    1001. *)
Lemma quota_never_exceeded_witness :
  Z.of_nat (length (inWindowAt 1000 1001
              (admitted "10.0.0.1"
                 (exampleCalls [0; 400; 500] ++ [Sweep 600]
                  ++ exampleCalls [1000; 1001]) ∅)))
  ≤ 2.
Proof.
  apply quota_never_exceeded.
  - lia.
  - unfold exampleCalls, exampleCallsAt. simpl.
    repeat (apply Forall_cons_2;
            [first [intros _; by vm_compute | by vm_compute]|]).
    apply Forall_nil_2.
  - unfold exampleCalls, exampleCallsAt. simpl.
    repeat (apply SSorted_cons;
            [|repeat (apply Forall_cons_2; [by vm_compute|]);
              apply Forall_nil_2]).
    apply SSorted_nil.
  - reflexivity.
Defined.

(** A client's entry is out of reach of the requests of other clients. *)
Lemma foreign_events_untouched cid events : ∀ counts,
  Forall (foreignTo cid) events →
  countsAfter events counts !! cid = counts !! cid.
Proof.
  induction events as [|e events IH]; intros counts Hforeign; [done|].
  apply Forall_cons in Hforeign as [He Hforeign].
  rewrite countsAfter_cons, IH by done.
  destruct e as [c|now]; [|done]. simpl in *.
  unfold handle, limiter. apply other_client_untouched.
  intros Heq. by apply He.
Qed.

(** What the limiter answers depends on the client's entry only. *)
Lemma limiter_local lim req now counts1 counts2 res :
  counts1 !! client lim req = counts2 !! client lim req →
  nextCalled (limiter lim req now counts1 res)
  = nextCalled (limiter lim req now counts2 res)
  ∧ response (limiter lim req now counts1 res)
    = response (limiter lim req now counts2 res)
  ∧ requestCounts (limiter lim req now counts1 res) !! client lim req
    = requestCounts (limiter lim req now counts2 res) !! client lim req.
Proof.
  intros Heq. unfold limiter, client in *.
  rewrite !middleware_unfold. unfold validRequests. rewrite Heq.
  case_bool_decide; simpl; by rewrite !lookup_insert_eq.
Qed.

(** X2.  Clients do not interfere.  However many requests of other
    clients are served in between, through whatever limiter instances, a
    client's entry is as it was, and the limiter answers the client's next
    request exactly as it would have without them: same decision, same
    response, same new entry. *)
Theorem other_clients_do_not_interfere (lim : Options) (req : Request)
    (now : Z) (events : list Event) (counts : gmap string (list Z))
    (res : Response) :
  Forall (foreignTo (client lim req)) events →
  countsAfter events counts !! client lim req = counts !! client lim req
  ∧ nextCalled (limiter lim req now (countsAfter events counts) res)
    = nextCalled (limiter lim req now counts res)
  ∧ response (limiter lim req now (countsAfter events counts) res)
    = response (limiter lim req now counts res)
  ∧ requestCounts (limiter lim req now (countsAfter events counts) res)
      !! client lim req
    = requestCounts (limiter lim req now counts res) !! client lim req.
Proof.
  intros Hforeign.
  pose proof (foreign_events_untouched _ events counts Hforeign) as Hsame.
  split; [done|]. by apply limiter_local.
Qed.

(** A thousand requests of another address do not use up the quota of
    this one. *)
Lemma other_clients_do_not_interfere_witness :
  nextCalled
    (limiter (quota 1000 2) (anon "10.0.0.1") 5
       (countsAfter
          (map (λ now, Arrive (mkCall (quota 1000 2) (anon "10.0.0.2") now))
             (replicate 1000 3)) ∅)
       freshResponse)
  = true.
Proof.
  assert (Forall (foreignTo (client (quota 1000 2) (anon "10.0.0.1")))
            (map (λ now, Arrive (mkCall (quota 1000 2) (anon "10.0.0.2") now))
               (replicate 1000 3))) as Hforeign.
  { apply Forall_fmap, Forall_forall. intros t _. by vm_compute. }
  rewrite (proj1 (proj2
    (other_clients_do_not_interfere (quota 1000 2) (anon "10.0.0.1") 5
       _ ∅ freshResponse Hforeign))).
  by vm_compute.
Defined.

(** *** Client identity *)

(** X3.  A limiter created with [useUserId] accounts an authenticated
    request to its user, whatever the address: two requests with different
    non-empty user ids are different clients even from one address, and
    two requests of one user are one client even from different
    addresses.  Without a user id the request is accounted to its address,
    as it always is by a limiter created without [useUserId]. *)
Theorem user_keyed_clients (req1 req2 : Request) (u1 u2 : string) :
  userId req1 = Some u1 → userId req2 = Some u2 → u1 ≠ "" → u2 ≠ "" →
  (u1 ≠ u2 → clientId true req1 ≠ clientId true req2)
  ∧ (u1 = u2 → clientId true req1 = clientId true req2)
  ∧ clientId true req1 = "user_" +:+ u1
  ∧ clientId false req1
    = clientId true
        {| userId := None; ip := ip req1;
           remoteAddress := remoteAddress req1 |}.
Proof.
  intros H1 H2 Hu1 Hu2.
  assert (∀ req u, userId req = Some u → u ≠ "" →
                   clientId true req = "user_" +:+ u) as Hkey.
  { intros req u Hu Hne. unfold clientId. rewrite Hu. simpl.
    destruct (String.eqb_spec u ""); [done|]. done. }
  rewrite (Hkey _ _ H1 Hu1), (Hkey _ _ H2 Hu2).
  split; [|split; [by intros ->|split; [done|]]].
  - intros Hne Heq. simpl in Heq. by simplify_eq.
  - done.
Qed.

Lemma user_keyed_clients_witness :
  clientId true {| userId := Some "alice"; ip := Some "10.0.0.1";
                   remoteAddress := None |}
  ≠ clientId true {| userId := Some "bob"; ip := Some "10.0.0.1";
                     remoteAddress := None |}.
Proof.
  refine (proj1 (user_keyed_clients _ _ "alice" "bob" _ _ _ _) _);
    (reflexivity || discriminate).
Defined.

(** *** The client's array *)

(** X4.  Whatever the limiter decides, it leaves no expired timestamp
    behind: afterwards every timestamp in the client's array is newer than
    [now - windowMs] or is [now] itself; and the array is no longer than
    the quota unless it was longer before, in which case it has not
    grown. *)
Theorem entry_stays_pruned_and_bounded (lim : Options) (req : Request)
    (now : Z) (counts : gmap string (list Z)) (res : Response) :
  Forall (λ t, t > now - windowMsOf lim ∨ t = now)
    (default [] (requestCounts (limiter lim req now counts res)
                   !! client lim req))
  ∧ Z.of_nat (length (default []
                        (requestCounts (limiter lim req now counts res)
                           !! client lim req)))
    ≤ Z.max (maxRequestsOf lim)
        (Z.of_nat (length (default [] (counts !! client lim req))))
  ∧ is_Some (requestCounts (limiter lim req now counts res)
               !! client lim req).
Proof.
  assert (Forall (λ t, t > now - windowMsOf lim ∨ t = now)
            (inWindow lim counts req now)) as Hin.
  { apply Forall_forall. intros t Ht.
    unfold inWindow, validRequests, windowStart in Ht.
    apply list_elem_of_filter in Ht as [Ht _]. by left. }
  pose proof (length_filter (λ t, t > windowStart (windowMsOf lim) now)
                (default [] (counts !! client lim req))) as Hlen.
  fold (validRequests (windowMsOf lim) counts (client lim req) now) in Hlen.
  fold (inWindow lim counts req now) in Hlen.
  unfold limiter. rewrite middleware_unfold.
  fold (client lim req). fold (inWindow lim counts req now).
  case_bool_decide; simpl; rewrite lookup_insert_eq; simpl.
  - split; [done|]. split; [lia|eauto].
  - split; [|split; [|eauto]].
    + apply Forall_app; split; [done|]. apply Forall_singleton. by right.
    + rewrite length_app. simpl. lia.
Qed.

(** *** The advertised delay *)

(** X9.  The advertised delay is enough.  When a request is rejected while
    the client's array holds exactly the quota, a request of the same client
    through the same limiter, made [retryAfter] seconds later or more on
    the map the rejection left, is admitted. *)
Theorem retry_after_suffices (lim : Options) (req : Request) (now now' : Z)
    (counts : gmap string (list Z)) (res res' : Response) (oldest : Z) :
  nextCalled (limiter lim req now counts res) = false →
  head (inWindow lim counts req now) = Some oldest →
  Z.of_nat (length (inWindow lim counts req now)) = maxRequestsOf lim →
  now + 1000 * ceilDiv (oldest + windowMsOf lim - now) 1000 ≤ now' →
  nextCalled
    (limiter lim req now' (requestCounts (limiter lim req now counts res))
       res')
  = true.
Proof.
  intros Hrej Hhead Hfull Hlater.
  apply admitted_iff. unfold validRequests.
  unfold limiter in Hrej |- *.
  rewrite (rejected_counts _ _ _ _ _ _ _ _ Hrej), lookup_insert_eq. simpl.
  fold (client lim req). fold (inWindow lim counts req now).
  apply head_Some in Hhead as [rest Hvalid]. rewrite Hvalid in Hfull |- *.
  pose proof (ceilDiv_spec (oldest + windowMsOf lim - now) 1000) as Hceil.
  rewrite filter_cons_False by (unfold windowStart; lia).
  pose proof (length_filter (λ t, t > windowStart (windowMsOf lim) now') rest).
  simpl in Hfull. lia.
Qed.

(** The example of the specification: rejected at 500 with the advice to
    come back in one second, admitted at 1500. *)
Lemma retry_after_suffices_witness :
  nextCalled
    (limiter (quota 1000 2) (anon "10.0.0.1") 1500
       (requestCounts
          (limiter (quota 1000 2) (anon "10.0.0.1") 500
             (countsAfter (exampleCalls [0; 400]) ∅) freshResponse))
       freshResponse)
  = true.
Proof.
  apply (retry_after_suffices _ _ _ _ _ _ _ 0); by vm_compute.
Defined.

(** *** The periodic cleanup *)

(** X5.  The cleanup, entry by entry: it creates no entry; from every
    array it keeps exactly the timestamps newer than [now - maxAge], in
    their order; and it deletes the clients for which none is left, so that
    no client is left with an empty array.  A client all of whose
    timestamps (at least one) are inside the horizon keeps its entry as it
    is. *)
Theorem sweep_exact (now : Z) (counts : gmap string (list Z)) (key : string) :
  sweep now counts !! key
  = match counts !! key with
    | Some requests =>
        match filter (λ t, t > now - maxAge) requests with
        | [] => None
        | kept => Some kept
        end
    | None => None
    end
  ∧ sweep now counts !! key ≠ Some []
  ∧ Forall (λ t, t > now - maxAge) (default [] (sweep now counts !! key))
  ∧ (∀ requests, counts !! key = Some requests → requests ≠ [] →
       Forall (λ t, t > now - maxAge) requests →
       sweep now counts !! key = Some requests).
Proof.
  assert (sweep now counts !! key
          = match counts !! key with
            | Some requests =>
                match filter (λ t, t > now - maxAge) requests with
                | [] => None
                | kept => Some kept
                end
            | None => None
            end) as Hlookup.
  { rewrite sweep_lookup. destruct (counts !! key) as [requests|]; [|done].
    simpl. unfold swept.
    destruct (filter (λ t, t > now - maxAge) requests); by case_bool_decide. }
  split; [done|]. split; [|split].
  - rewrite Hlookup. destruct (counts !! key) as [requests|]; [|done].
    by destruct (filter (λ t, t > now - maxAge) requests).
  - rewrite sweep_default. apply Forall_forall.
    by intros t [Ht _]%list_elem_of_filter.
  - intros requests Hreq Hne Hall. rewrite Hlookup, Hreq.
    rewrite filter_keeps_all by done. by destruct requests.
Qed.

Lemma sweep_exact_witness :
  sweep 3600500 {["10.0.0.1" := [400; 1001]]} !! "10.0.0.1" = Some [1001].
Proof.
  rewrite (proj1 (sweep_exact 3600500 {["10.0.0.1" := [400; 1001]]}
                    "10.0.0.1")).
  reflexivity.
Defined.

(** X6.  The cleanup is invisible to a limiter whose window does not
    exceed the retention horizon: for a request made no earlier than the
    cleanup, the decision, the response and the client's new array are the
    same with and without the cleanup. *)
Theorem sweep_is_invisible (lim : Options) (req : Request) (ts now : Z)
    (counts : gmap string (list Z)) (res : Response) :
  windowMsOf lim ≤ maxAge →
  ts ≤ now →
  nextCalled (limiter lim req now (sweep ts counts) res)
  = nextCalled (limiter lim req now counts res)
  ∧ response (limiter lim req now (sweep ts counts) res)
    = response (limiter lim req now counts res)
  ∧ requestCounts (limiter lim req now (sweep ts counts) res)
      !! client lim req
    = requestCounts (limiter lim req now counts res) !! client lim req.
Proof.
  intros Hw Hts.
  assert (validRequests (windowMsOf lim) (sweep ts counts)
            (client lim req) now
          = validRequests (windowMsOf lim) counts (client lim req) now)
    as Hvalid.
  { unfold validRequests, windowStart.
    rewrite sweep_default. apply filter_twice. lia. }
  unfold limiter. rewrite !middleware_unfold.
  fold (client lim req). rewrite Hvalid.
  case_bool_decide; simpl; by rewrite !lookup_insert_eq.
Qed.

(** The [upload] limiter, whose window is the retention horizon itself:
    twenty uploads in the first second, the cleanup after 59 minutes, and
    the twenty-first upload right after it is still rejected. *)
Lemma sweep_is_invisible_witness :
  nextCalled
    (limiter upload (anon "10.0.0.1") 3540001
       (sweep 3540000
          (countsAfter (exampleCallsAt upload (replicate 20 1000)) ∅))
       freshResponse)
  = false.
Proof.
  rewrite (proj1 (sweep_is_invisible upload (anon "10.0.0.1") 3540000 3540001
                    _ freshResponse ltac:(by vm_compute) ltac:(lia))).
  by vm_compute.
Defined.

(** X7.  Cleanups compose: a cleanup followed by a later (or simultaneous)
    one leaves the map that the later one alone would have left; in
    particular a cleanup repeated at the same instant changes nothing. *)
Theorem sweep_twice (t1 t2 : Z) (counts : gmap string (list Z)) :
  t1 ≤ t2 →
  sweep t2 (sweep t1 counts) = sweep t2 counts.
Proof.
  intros Hle. apply map_eq. intros key. rewrite !sweep_lookup.
  destruct (counts !! key) as [requests|]; [|done]. simpl.
  unfold swept at 2. case_bool_decide as Hnone; simpl.
  - unfold swept. rewrite bool_decide_eq_true_2; [done|].
    rewrite <- (filter_twice (t1 - maxAge) (t2 - maxAge)) by lia.
    apply nil_length_inv in Hnone. by rewrite Hnone.
  - unfold swept. by rewrite filter_twice by lia.
Qed.

Lemma sweep_twice_witness :
  sweep 3600500 (sweep 3600500 {["10.0.0.1" := [400; 1001]]})
  = sweep 3600500 {["10.0.0.1" := [400; 1001]]}.
Proof. apply sweep_twice. lia. Defined.

(** *** Chronological order *)

(** X8.  With a clock that does not run backwards the arrays stay in
    chronological order: if the client's array is sorted and holds no
    timestamp later than [now], the same is true after the request at
    [now], admitted or not. *)
Theorem chronological_order_kept (lim : Options) (req : Request) (now : Z)
    (counts : gmap string (list Z)) (res : Response) :
  StronglySorted Z.le (default [] (counts !! client lim req)) →
  Forall (λ t, t ≤ now) (default [] (counts !! client lim req)) →
  StronglySorted Z.le
    (default [] (requestCounts (limiter lim req now counts res)
                   !! client lim req))
  ∧ Forall (λ t, t ≤ now)
      (default [] (requestCounts (limiter lim req now counts res)
                     !! client lim req)).
Proof. apply chronological_preserved. Qed.

Lemma chronological_order_kept_witness :
  StronglySorted Z.le
    (default [] (requestCounts
                   (limiter (quota 1000 2) (anon "10.0.0.1") 1001
                      {["10.0.0.1" := [0; 400]]} freshResponse)
                   !! "10.0.0.1")).
Proof.
  refine (proj1 (chronological_order_kept (quota 1000 2) (anon "10.0.0.1")
                   1001 {["10.0.0.1" := [0; 400]]} freshResponse _ _)).
  - repeat (apply SSorted_cons;
            [|repeat (apply Forall_cons_2; [by vm_compute|]);
              apply Forall_nil_2]).
    apply SSorted_nil.
  - repeat (apply Forall_cons_2; [by vm_compute|]). apply Forall_nil_2.
Defined.

End rateLimiterRuns.

(** * Further properties of the cache service *)

Module cacheServiceUse.
Import cacheService scenarios moreScenarios cacheServiceSpec.

(** *** Writing and reading *)

(** X10.  Round trip.  A value that was set, whatever it is, is what [get]
    returns for as long as the clock has not passed [expiresAt], the
    instant [ttl] after the reading of the clock in [set]; this includes
    the instant [expiresAt] itself.  The read leaves the cache as it is and
    [has] answers [true]. *)
Theorem set_get_round_trip (this : CacheService) (key : string) (v : JsValue)
    (ttl : option Z) (nowE nowC now : Z) :
  now ≤ nowE + default (defaultTTL this) ttl →
  get key now (set key v ttl nowE nowC this)
  = (v, set key v ttl nowE nowC this)
  ∧ has key now (set key v ttl nowE nowC this)
    = (true, set key v ttl nowE nowC this).
Proof.
  intros Hlive.
  assert (¬ now > expiresAt (written this v ttl nowE nowC)) as Hnot
    by (simpl; lia).
  split.
  - by rewrite (get_live _ _ _ _ (set_lookup this key v ttl nowE nowC) Hnot).
  - unfold has. rewrite set_lookup. by case_bool_decide.
Qed.

(** Set at 0 for the default five minutes, read at the last instant. *)
Lemma set_get_round_trip_witness :
  (get "k" 300000 (set "k" (VNumber (Int 7)) None 0 0 fresh)).1
  = VNumber (Int 7).
Proof.
  rewrite (proj1 (set_get_round_trip fresh "k" (VNumber (Int 7)) None 0 0
                    300000 ltac:(by vm_compute))).
  reflexivity.
Defined.

(** X11.  [set] overwrites and touches nothing else: of two writes to a key
    only the second one counts; the entries of all other keys are as they
    were; the default [ttl] is as it was; and the map grows by one entry
    exactly when the key had none. *)
Theorem set_overwrites (this : CacheService) (key : string) (v1 v2 : JsValue)
    (ttl1 ttl2 : option Z) (e1 c1 e2 c2 : Z) :
  set key v2 ttl2 e2 c2 (set key v1 ttl1 e1 c1 this)
  = set key v2 ttl2 e2 c2 this
  ∧ (∀ key', key' ≠ key →
       cache (set key v1 ttl1 e1 c1 this) !! key' = cache this !! key')
  ∧ defaultTTL (set key v1 ttl1 e1 c1 this) = defaultTTL this
  ∧ size (cache (set key v1 ttl1 e1 c1 this))
    = if decide (is_Some (cache this !! key)) then size (cache this)
      else S (size (cache this)).
Proof.
  split; [|split; [|split; [done|]]].
  - unfold set, withCache. simpl. by rewrite insert_insert_eq.
  - intros key' Hne. by apply set_lookup_ne.
  - unfold set. simpl. case_decide as Hsome.
    + destruct Hsome as [item Hitem].
      by rewrite map_size_insert_Some by eauto.
    + apply eq_None_not_Some in Hsome. by rewrite map_size_insert_None.
Qed.

(** *** Deleting *)

(** X12.  [delete] reports whether the key had an entry, expired or not,
    and removes it: afterwards [get] returns [null] and [has] returns
    [false] at every instant, the other keys are as they were, and a
    second [delete] reports [false] and changes nothing. *)
Theorem delete_removes (this : CacheService) (key : string) (now : Z) :
  ((cacheService.delete key this).1 = true ↔ is_Some (cache this !! key))
  ∧ get key now (cacheService.delete key this).2
    = (VNull, (cacheService.delete key this).2)
  ∧ has key now (cacheService.delete key this).2
    = (false, (cacheService.delete key this).2)
  ∧ (∀ key', key' ≠ key →
       cache (cacheService.delete key this).2 !! key' = cache this !! key')
  ∧ cacheService.delete key (cacheService.delete key this).2
    = (false, (cacheService.delete key this).2).
Proof.
  unfold cacheService.delete. simpl. split; [|split; [|split; [|split]]].
  - by rewrite bool_decide_eq_true.
  - apply get_missing. simpl. apply lookup_delete_eq.
  - unfold has. simpl. by rewrite lookup_delete_eq.
  - intros key' Hne. by rewrite lookup_delete_ne.
  - simpl. rewrite lookup_delete_eq.
    rewrite bool_decide_eq_false_2 by (by intros [? ?]).
    unfold withCache. simpl. do 2 f_equal.
    apply delete_id, lookup_delete_eq.
Qed.

(** *** Reading *)

(** X18.  [has] and [get] agree.  They leave the same cache behind; [has]
    answers [true] exactly when the key has an entry that the clock has not
    passed; a value other than [null] that [get] returns is the value of
    such an entry, so an expired value is never served; and when [has]
    answers [true], [get] returns the value of the entry. *)
Theorem has_get_agree (this : CacheService) (key : string) (now : Z) :
  (has key now this).2 = (get key now this).2
  ∧ ((has key now this).1 = true
     ↔ ∃ item, cache this !! key = Some item ∧ now ≤ expiresAt item)
  ∧ ((get key now this).1 ≠ VNull →
     ∃ item, cache this !! key = Some item ∧ now ≤ expiresAt item
             ∧ (get key now this).1 = value item)
  ∧ ((has key now this).1 = true →
     ∃ item, cache this !! key = Some item
             ∧ get key now this = (value item, this)).
Proof.
  unfold has, get. destruct (cache this !! key) as [item|] eqn:Hitem.
  - case_bool_decide as Hexp; simpl.
    + split; [done|]. split; [|split; [done|done]].
      split; [done|]. intros [item' [[= <-] Hlive]]. lia.
    + split; [done|]. split; [|split].
      * split; [|done]. intros _. exists item. split; [done|lia].
      * intros _. exists item. split; [done|]. split; [lia|done].
      * intros _. by exists item.
  - simpl. split; [done|]. split; [|split; [done|done]].
    split; [done|]. by intros [item [? _]].
Qed.

(** *** Statistics and the sweep *)

Lemma length_filter_entries (P : string * CacheItem → Prop)
    `{!∀ e, Decision (P e)} (m : gmap string CacheItem) :
  length (filter P (map_to_list m)) = size (filter P m).
Proof.
  rewrite map_filter_alt, map_size_list_to_map; [done|].
  apply NoDup_fmap_fst.
  - intros k i1 i2 [_ H1]%list_elem_of_filter [_ H2]%list_elem_of_filter.
    apply elem_of_map_to_list in H1, H2. congruence.
  - apply NoDup_filter, NoDup_map_to_list.
Qed.

Lemma getStats_loop now (entries : list (string * CacheItem)) :
  ∀ acc : Z * Z,
    foldl (getStatsStep now) acc entries.*2
    = (acc.1 + Z.of_nat (length (filter (λ e, expiresAt e.2 < now) entries)),
       acc.2
       + Z.of_nat (length (filter (λ e, ¬ expiresAt e.2 < now) entries))).
Proof.
  induction entries as [|e entries IH]; intros [x a]; simpl.
  - f_equal; lia.
  - rewrite IH, !filter_cons. unfold getStatsStep.
    case_bool_decide as Hexp; simpl.
    + rewrite decide_True, decide_False by lia. simpl. f_equal; lia.
    + rewrite decide_False, decide_True by lia. simpl. f_equal; lia.
Qed.

Lemma live_and_expired (now : Z) (m : gmap string CacheItem) :
  size m
  = Nat.add
      (size (filter (λ e : string * CacheItem, expiresAt e.2 < now) m))
      (size (filter (λ e : string * CacheItem, ¬ expiresAt e.2 < now) m)).
Proof.
  rewrite <- (map_filter_union_complement
                (λ e : string * CacheItem, expiresAt e.2 < now) m) at 1.
  by rewrite map_size_disj_union by apply map_disjoint_filter_complement.
Qed.

(** X14.  [getStats] counts: [expired] is the number of entries whose
    [expiresAt] is before [now], [active] the number of the others, and
    [total], the size of the map, is their sum. *)
Theorem getStats_counts (now : Z) (this : CacheService) :
  expired (getStats now this)
  = Z.of_nat (size (filter (λ e, expiresAt e.2 < now) (cache this)))
  ∧ active (getStats now this)
    = Z.of_nat (size (filter (λ e, ¬ expiresAt e.2 < now) (cache this)))
  ∧ total (getStats now this) = Z.of_nat (size (cache this))
  ∧ total (getStats now this)
    = active (getStats now this) + expired (getStats now this).
Proof.
  unfold getStats. rewrite getStats_loop, !length_filter_entries. simpl.
  repeat split; [lia..|]. rewrite (live_and_expired now (cache this)). lia.
Qed.

Lemma cleanExpired_cache now this :
  cache (cleanExpired now this).2
  = filter (λ e, ¬ expiresAt e.2 < now) (cache this).
Proof.
  apply map_eq. intros key.
  rewrite cleanExpired_lookup, map_lookup_filter.
  destruct (cache this !! key) as [item|]; [|done]. simpl.
  destruct (decide (expiresAt item < now)) as [Hexp|Hexp].
  - by rewrite option_guard_False by (simpl; lia).
  - by rewrite option_guard_True.
Qed.

Lemma cleanExpired_count now this :
  (cleanExpired now this).1
  = Z.of_nat (size (filter (λ e, expiresAt e.2 < now) (cache this))).
Proof.
  assert (Forall (λ e : string * CacheItem, is_Some (cache this !! e.1))
            (map_to_list (cache this))) as Hpresent.
  { apply Forall_forall. intros [k item] Hin. simpl.
    apply elem_of_map_to_list in Hin. eauto. }
  pose proof (cleanExpired_loop_count now (map_to_list (cache this))
                (0, cache this) (NoDup_fst_map_to_list _) Hpresent) as Hloop.
  pose proof (cleanExpired_cache now this) as Hcache.
  unfold cleanExpired in *.
  destruct (foldl (cleanExpiredStep now) (0, cache this)
              (map_to_list (cache this))) as [removed c].
  simpl in *. subst c. rewrite (live_and_expired now (cache this)) in Hloop.
  lia.
Qed.

Lemma no_expired_left (now now' : Z) (m : gmap string CacheItem) :
  now' ≤ now →
  filter (λ e, expiresAt e.2 < now') (filter (λ e, ¬ expiresAt e.2 < now) m)
  = ∅.
Proof.
  intros Hle. apply map_empty. intros key.
  apply map_lookup_filter_None. right. intros item Hitem.
  apply map_lookup_filter_Some in Hitem as [_ Hlive]. simpl in *. lia.
Qed.

(** X15.  The sweep and the statistics fit together: [cleanExpired]
    returns the number that [getStats] reports as [expired] at the same
    instant, and in the statistics taken after the sweep nothing is
    expired, while [active] is what it was and equals [total]. *)
Theorem cleanExpired_and_getStats (now : Z) (this : CacheService) :
  (cleanExpired now this).1 = expired (getStats now this)
  ∧ expired (getStats now (cleanExpired now this).2) = 0
  ∧ active (getStats now (cleanExpired now this).2)
    = active (getStats now this)
  ∧ total (getStats now (cleanExpired now this).2)
    = active (getStats now this).
Proof.
  pose proof (no_expired_left now now (cache this) ltac:(lia)) as Hnone.
  unfold getStats.
  rewrite !getStats_loop, !length_filter_entries, cleanExpired_cache,
    cleanExpired_count.
  rewrite Hnone, map_size_empty. simpl.
  rewrite (live_and_expired now
             (filter (λ e, ¬ expiresAt e.2 < now) (cache this))), Hnone,
    map_size_empty.
  repeat split; lia.
Qed.

(** X16.  The sweep is invisible to reads and settles: for every key,
    [get] and [has] at the instant of the sweep answer after the sweep what
    they would have answered before it, and find nothing left to evict; and
    a second sweep at that instant or an earlier one removes nothing. *)
Theorem cleanExpired_is_invisible (now : Z) (this : CacheService)
    (key : string) :
  (get key now (cleanExpired now this).2).1 = (get key now this).1
  ∧ (has key now (cleanExpired now this).2).1 = (has key now this).1
  ∧ (get key now (cleanExpired now this).2).2 = (cleanExpired now this).2
  ∧ (∀ now', now' ≤ now →
       cleanExpired now' (cleanExpired now this).2
       = (0, (cleanExpired now this).2)).
Proof.
  pose proof (cleanExpired_lookup now this key) as Hlookup.
  split; [|split; [|split]].
  - unfold get. rewrite Hlookup.
    destruct (cache this !! key) as [item|]; [|done].
    case_decide; case_bool_decide; simpl; (done || lia).
  - unfold has. rewrite Hlookup.
    destruct (cache this !! key) as [item|]; [|done].
    case_decide; case_bool_decide; simpl; (done || lia).
  - unfold get. rewrite Hlookup.
    destruct (cache this !! key) as [item|]; [|done].
    case_decide; [done|]. case_bool_decide; [lia|done].
  - intros now' Hle. clear Hlookup.
    pose proof (cleanExpired_cache now this) as Hthat.
    set (that := (cleanExpired now this).2) in *.
    assert ((cleanExpired now' that).1 = 0) as Hcount.
    { by rewrite cleanExpired_count, Hthat, no_expired_left, map_size_empty. }
    assert (cache (cleanExpired now' that).2 = cache that) as Hcache.
    { rewrite cleanExpired_cache, Hthat. apply map_filter_id.
      intros k item Hitem.
      apply map_lookup_filter_Some in Hitem as [_ Hlive]. simpl in *. lia. }
    assert (defaultTTL (cleanExpired now' that).2 = defaultTTL that) as Httl.
    { unfold cleanExpired. by destruct (foldl _ _ _). }
    destruct (cleanExpired now' that) as [n [c d]], that as [c' d'].
    simpl in *. congruence.
Qed.

(** *** A failing supplier *)

Lemma get_null_leaves_nullish key now this :
  (get key now this).1 = VNull → nullish key (get key now this).2.
Proof.
  unfold get, nullish. destruct (cache this !! key) as [item|] eqn:Hitem.
  - case_bool_decide; simpl.
    + by rewrite lookup_delete_eq.
    + rewrite Hitem. done.
  - simpl. by rewrite Hitem.
Qed.

(** X17.  Failures are not cached.  When [getOrSet] misses and the
    supplier fails without touching the cache, the failure is passed on
    as it is and nothing is stored: the entry of the key is gone (if it
    had expired) or as it was, the other keys are as they were, and the
    next [getOrSet] for the key, whenever it comes, invokes its supplier
    again. *)
Theorem supplier_failure_is_not_cached {S : Type} (key : string)
    (f g : @Supplier S) (ttl ttl' : option Z)
    (nowG nowE nowC nowG' nowE' nowC' : Z) (w w' : CacheService * S)
    (e : JsValue) :
  (get key nowG w.1).1 = VNull →
  f ((get key nowG w.1).2, w.2) = (Throw e, w') →
  w'.1 = (get key nowG w.1).2 →
  getOrSet key f ttl nowG nowE nowC w = (Throw e, w')
  ∧ (cache w'.1 !! key = None ∨ cache w'.1 !! key = cache w.1 !! key)
  ∧ (∀ key', key' ≠ key → cache w'.1 !! key' = cache w.1 !! key')
  ∧ getOrSet key g ttl' nowG' nowE' nowC' w'
    = match g ((get key nowG' w'.1).2, w'.2) with
      | (Normal v, w'') =>
          (Normal v,
           (set key v (Some (default (defaultTTL w'.1) ttl')) nowE' nowC'
              w''.1, w''.2))
      | (Throw e', w'') => (Throw e', w'')
      end.
Proof.
  intros Hmiss Hf Hcache.
  split; [by rewrite getOrSet_miss, Hf by done|].
  pose proof (get_null_leaves_nullish key nowG w.1 Hmiss) as Hnullish.
  rewrite <- Hcache in Hnullish.
  split; [|split].
  - rewrite Hcache. unfold get.
    destruct (cache w.1 !! key) as [item|] eqn:Hitem; [|by left].
    case_bool_decide; simpl; [left; apply lookup_delete_eq|by right].
  - intros key' Hne. rewrite Hcache. unfold get.
    destruct (cache w.1 !! key) as [item|] eqn:Hitem; [|done].
    case_bool_decide; simpl; [by rewrite lookup_delete_ne|done].
  - apply getOrSet_miss. by apply get_nullish.
Qed.

(** A supplier that fails twice is invoked twice, and the cache stays
    empty. *)
Lemma supplier_failure_is_not_cached_witness :
  getOrSet "k" (failingSupplier (VString "down")) None 5 5 5
    (getOrSet "k" (failingSupplier (VString "down")) None 0 0 0
       (fresh, 0%nat)).2
  = (Throw (VString "down"), (fresh, 2%nat)).
Proof.
  destruct (supplier_failure_is_not_cached "k"
              (failingSupplier (VString "down"))
              (failingSupplier (VString "down")) None None 0 0 0 5 5 5
              (fresh, 0%nat) (fresh, 1%nat) (VString "down"))
    as (Hfirst & _ & _ & Hsecond); [done..|].
  rewrite Hfirst. cbn [snd]. rewrite Hsecond. reflexivity.
Defined.

(** A read at 10 after the sweep at 10 of an entry that expired at 5. *)
Lemma cleanExpired_is_invisible_witness :
  cleanExpired 7
    (cleanExpired 10 (set "k" (VString "v") (Some 5) 0 0 fresh)).2
  = (0, (cleanExpired 10 (set "k" (VString "v") (Some 5) 0 0 fresh)).2).
Proof.
  apply (proj2 (proj2 (proj2
    (cleanExpired_is_invisible 10 (set "k" (VString "v") (Some 5) 0 0 fresh)
       "k")))).
  lia.
Defined.

(** An entry set at 0 for 1000 milliseconds, asked for at 1000. *)
Lemma has_get_agree_witness :
  ∃ item,
    cache (set "k" (VString "v") (Some 1000) 0 0 fresh) !! "k" = Some item
    ∧ get "k" 1000 (set "k" (VString "v") (Some 1000) 0 0 fresh)
      = (value item, set "k" (VString "v") (Some 1000) 0 0 fresh).
Proof.
  apply (proj2 (proj2 (proj2
    (has_get_agree (set "k" (VString "v") (Some 1000) 0 0 fresh) "k" 1000)))).
  by vm_compute.
Defined.

End cacheServiceUse.

(** * Properties of the response cache *)

Module cacheMiddlewareSpec.
Import cacheService cacheMiddleware scenarios cacheServiceSpec.

Lemma cacheMiddleware_miss options req now clock res this :
  method req = "GET" →
  (get (keyGeneratorOf options req) now this).1 = VNull →
  cacheMiddleware options req now clock res this
  = {| response :=
         {| state := state res;
            overrides :=
              {| req_ := req; cacheKey := keyGeneratorOf options req;
                 ttl_ := ttlOf options;
                 shouldCache_ := shouldCacheOf options |}
              :: overrides res |};
       service := (get (keyGeneratorOf options req) now this).2;
       nextCalled := true |}.
Proof.
  intros Hget Hmiss. unfold cacheMiddleware. rewrite Hget. simpl.
  destruct (get (keyGeneratorOf options req) now this) as [cached this1].
  simpl in Hmiss. by subst cached.
Qed.

Lemma cacheMiddleware_hit options req now clock res this item :
  method req = "GET" →
  overrides res = [] →
  cache this !! keyGeneratorOf options req = Some item →
  now ≤ expiresAt item →
  value item ≠ VNull →
  cacheMiddleware options req now clock res this
  = {| response :=
         {| state := send (value item)
                       (setHeader "X-Cache" "HIT" (state res));
            overrides := [] |};
       service := this;
       nextCalled := false |}.
Proof.
  intros Hget Hplain Hitem Hlive Hvalue. unfold cacheMiddleware.
  rewrite Hget. simpl.
  rewrite (get_live _ _ _ _ Hitem) by lia.
  unfold resJson. simpl. rewrite Hplain. simpl.
  by destruct (value item).
Qed.

(** X19.  Only GET requests pass through the cache.  For any other method
    the middleware reads nothing and installs nothing: the handler's
    response goes out as the handler made it, without an [X-Cache] header,
    and the cache is what it was. *)
Theorem only_get_is_cached (options : Options) (req : Request) (now : Z)
    (clock : nat → Z) (code : Z) (data : JsValue) (this : CacheService) :
  method req ≠ "GET" →
  route options req now clock code data this
  = ({| state := {| statusCode := code; headers := ∅; body := Some data |};
        overrides := [] |}, this).
Proof.
  intros Hmethod. unfold route, cacheMiddleware.
  destruct (String.eqb_spec (method req) "GET") as [|_]; [done|]. done.
Qed.

Lemma only_get_is_cached_witness :
  (route (mkOptions None None None) (mkRequest "POST" (Some "/api/jobs") "/jobs")
     0 (λ _, 0) 201 (VString "created") fresh).2
  = fresh.
Proof.
  refine (f_equal snd
            (only_get_is_cached (mkOptions None None None)
               (mkRequest "POST" (Some "/api/jobs") "/jobs")
               0 (λ _, 0) 201 (VString "created") fresh _)).
  simpl. discriminate.
Defined.

(** X20.  A hit is served from the cache.  For a GET whose key has a live
    entry with a value other than [null], the handler is not called: the
    response carries the header [X-Cache: HIT] and the cached value, with
    the status untouched, and the cache is what it was. *)
Theorem hit_serves_cached (options : Options) (req : Request) (now : Z)
    (clock : nat → Z) (code : Z) (data : JsValue) (this : CacheService)
    (item : CacheItem) :
  method req = "GET" →
  cache this !! keyGeneratorOf options req = Some item →
  now ≤ expiresAt item →
  value item ≠ VNull →
  nextCalled (cacheMiddleware options req now clock freshResponse this)
  = false
  ∧ route options req now clock code data this
    = ({| state := {| statusCode := 200;
                      headers := {["X-Cache" := "HIT"]};
                      body := Some (value item) |};
          overrides := [] |}, this).
Proof.
  intros Hget Hitem Hlive Hvalue. unfold route.
  by rewrite (cacheMiddleware_hit _ _ _ _ _ _ item).
Qed.

(** X21.  A miss is stored and then served.  For a GET without a usable
    entry, with the default [shouldCache], a handler that answers with
    status 200: the response carries [X-Cache: MISS] and the handler's
    payload, and the payload is stored under the key, to expire [ttl]
    after the reading of the clock.  If the payload is not [null], the same
    GET repeated before that instant is answered with that payload and
    [X-Cache: HIT], whatever the handler would answer now. *)
Theorem miss_then_hit (options : Options) (req : Request) (now now' : Z)
    (clock clock' : nat → Z) (code' : Z) (data data' : JsValue)
    (this : CacheService) :
  method req = "GET" →
  shouldCache options = None →
  (get (keyGeneratorOf options req) now this).1 = VNull →
  route options req now clock 200 data this
  = ({| state := {| statusCode := 200;
                    headers := {["X-Cache" := "MISS"]};
                    body := Some data |};
        overrides :=
          [ {| req_ := req; cacheKey := keyGeneratorOf options req;
               ttl_ := ttlOf options;
               shouldCache_ := shouldCacheOf options |} ] |},
     set (keyGeneratorOf options req) data (Some (ttlOf options))
       (clock 0%nat) (clock 1%nat)
       (get (keyGeneratorOf options req) now this).2)
  ∧ (data ≠ VNull →
     now' ≤ clock 0%nat + ttlOf options →
     route options req now' clock' code' data'
       (route options req now clock 200 data this).2
     = ({| state := {| statusCode := 200;
                       headers := {["X-Cache" := "HIT"]};
                       body := Some data |};
           overrides := [] |},
        (route options req now clock 200 data this).2)).
Proof.
  intros Hget Hdefault Hmiss.
  assert (route options req now clock 200 data this
          = ({| state := {| statusCode := 200;
                            headers := {["X-Cache" := "MISS"]};
                            body := Some data |};
                overrides :=
                  [ {| req_ := req; cacheKey := keyGeneratorOf options req;
                       ttl_ := ttlOf options;
                       shouldCache_ := shouldCacheOf options |} ] |},
             set (keyGeneratorOf options req) data (Some (ttlOf options))
               (clock 0%nat) (clock 1%nat)
               (get (keyGeneratorOf options req) now this).2)) as Hfirst.
  { unfold route. rewrite cacheMiddleware_miss by done. simpl.
    unfold resJson. simpl. unfold shouldCacheOf. rewrite Hdefault. simpl.
    rewrite Hget. simpl. done. }
  split; [done|]. intros Hdata Hlive. rewrite Hfirst. simpl.
  unfold route.
  rewrite (cacheMiddleware_hit _ _ _ _ _ _
             (written (get (keyGeneratorOf options req) now this).2 data
                (Some (ttlOf options)) (clock 0%nat) (clock 1%nat)));
    [done|done|done|apply set_lookup|simpl; lia|done].
Qed.

(** The list of jobs, asked for twice within a second. *)
Lemma miss_then_hit_witness :
  (route (mkOptions None None None) (mkRequest "GET" (Some "/api/jobs") "/jobs")
     1000 (λ _, 1000) 500 (VString "error")
     (route (mkOptions None None None)
        (mkRequest "GET" (Some "/api/jobs") "/jobs")
        0 (λ _, 0) 200 (VString "jobs") fresh).2).1
  = {| state := {| statusCode := 200; headers := {["X-Cache" := "HIT"]};
                   body := Some (VString "jobs") |};
       overrides := [] |}.
Proof.
  rewrite (proj2 (miss_then_hit (mkOptions None None None)
                    (mkRequest "GET" (Some "/api/jobs") "/jobs") 0 1000
                    (λ _, 0) (λ _, 1000) 500 (VString "jobs")
                    (VString "error") fresh
                    ltac:(reflexivity) ltac:(reflexivity) ltac:(reflexivity))
             ltac:(discriminate) ltac:(by vm_compute)).
  reflexivity.
Defined.

(** X22.  With the default [shouldCache] only a response of status 200 is
    stored.  For a GET that misses and a handler that answers with any
    other status (201 and 204 included), the response goes out with
    [X-Cache: MISS] and nothing is written: the cache is as the read left
    it, and the same GET misses again. *)
Theorem only_status_200_is_stored (options : Options) (req : Request)
    (now now' : Z) (clock clock' : nat → Z) (code : Z) (data : JsValue)
    (this : CacheService) :
  method req = "GET" →
  shouldCache options = None →
  (get (keyGeneratorOf options req) now this).1 = VNull →
  code ≠ 200 →
  (route options req now clock code data this).2
  = (get (keyGeneratorOf options req) now this).2
  ∧ state (route options req now clock code data this).1
    = {| statusCode := code; headers := {["X-Cache" := "MISS"]};
         body := Some data |}
  ∧ nextCalled
      (cacheMiddleware options req now' clock' freshResponse
         (route options req now clock code data this).2)
    = true.
Proof.
  intros Hget Hdefault Hmiss Hcode.
  assert (route options req now clock code data this
          = ({| state := {| statusCode := code;
                            headers := {["X-Cache" := "MISS"]};
                            body := Some data |};
                overrides :=
                  [ {| req_ := req; cacheKey := keyGeneratorOf options req;
                       ttl_ := ttlOf options;
                       shouldCache_ := shouldCacheOf options |} ] |},
             (get (keyGeneratorOf options req) now this).2)) as Hroute.
  { unfold route. rewrite cacheMiddleware_miss by done. simpl.
    unfold resJson. simpl. unfold shouldCacheOf. rewrite Hdefault. simpl.
    rewrite Hget. simpl. by rewrite bool_decide_eq_false_2. }
  rewrite Hroute. simpl. split; [done|]. split; [done|].
  rewrite cacheMiddleware_miss; [done|done|].
  apply get_nullish. by apply cacheServiceUse.get_null_leaves_nullish.
Qed.

Lemma only_status_200_is_stored_witness :
  (route (mkOptions None None None) (mkRequest "GET" None "/jobs/1")
     0 (λ _, 0) 404 (VString "not found") fresh).2
  = fresh.
Proof.
  refine (proj1 (only_status_200_is_stored (mkOptions None None None)
                   (mkRequest "GET" None "/jobs/1") 0 0 (λ _, 0) (λ _, 0)
                   404 (VString "not found") fresh _ _ _ _));
    (reflexivity || (simpl; lia)).
Defined.

(** X23.  A payload of [null] is stored and never served.  For a GET that
    misses and a handler that answers [null] with status 200, an entry for
    the key is written; all the same every later GET for the key, before
    or after the entry expires, calls the handler again. *)
Theorem null_payload_is_never_served (options : Options) (req : Request)
    (now now' : Z) (clock clock' : nat → Z) (this : CacheService) :
  method req = "GET" →
  shouldCache options = None →
  (get (keyGeneratorOf options req) now this).1 = VNull →
  cache (route options req now clock 200 VNull this).2
    !! keyGeneratorOf options req
  = Some {| value := VNull; expiresAt := clock 0%nat + ttlOf options;
            createdAt := clock 1%nat |}
  ∧ nextCalled
      (cacheMiddleware options req now' clock' freshResponse
         (route options req now clock 200 VNull this).2)
    = true.
Proof.
  intros Hget Hdefault Hmiss.
  assert ((route options req now clock 200 VNull this).2
          = set (keyGeneratorOf options req) VNull (Some (ttlOf options))
              (clock 0%nat) (clock 1%nat)
              (get (keyGeneratorOf options req) now this).2) as Hroute.
  { unfold route. rewrite cacheMiddleware_miss by done. simpl.
    unfold resJson. simpl. unfold shouldCacheOf. rewrite Hdefault. simpl.
    rewrite Hget. simpl. done. }
  rewrite Hroute. split; [apply set_lookup|].
  rewrite cacheMiddleware_miss; [done|done|].
  apply get_nullish. unfold nullish. by rewrite set_lookup.
Qed.

Lemma null_payload_is_never_served_witness :
  nextCalled
    (cacheMiddleware (mkOptions None None None)
       (mkRequest "GET" None "/profile") 1 (λ _, 1) freshResponse
       (route (mkOptions None None None) (mkRequest "GET" None "/profile")
          0 (λ _, 0) 200 VNull fresh).2)
  = true.
Proof.
  refine (proj2 (null_payload_is_never_served (mkOptions None None None)
                   (mkRequest "GET" None "/profile") 0 1 (λ _, 0) (λ _, 1)
                   fresh _ _ _)); reflexivity.
Defined.

(** X24.  [clearCache].  Called with a function it empties the cache:
    afterwards every key misses.  Called with a key it removes the entry
    of that key and leaves the entries of all other keys as they were. *)
Theorem clearCache_clears (this : CacheService) (key key' : string)
    (now : Z) :
  get key' now (clearCache Fn this) = (VNull, clearCache Fn this)
  ∧ size (cache (clearCache Fn this)) = 0%nat
  ∧ get key now (clearCache (Key key) this)
    = (VNull, clearCache (Key key) this)
  ∧ (key' ≠ key →
     cache (clearCache (Key key) this) !! key' = cache this !! key')
  ∧ defaultTTL (clearCache Fn this) = defaultTTL this.
Proof.
  split; [|split; [|split; [|split]]].
  - apply get_missing. apply lookup_empty.
  - apply map_size_empty.
  - apply get_missing. simpl. apply lookup_delete_eq.
  - intros Hne. simpl. by rewrite lookup_delete_ne.
  - done.
Qed.

(** The list of jobs, in the cache since 0, asked for at 1000. *)
Lemma hit_serves_cached_witness :
  nextCalled
    (cacheMiddleware (mkOptions None None None)
       (mkRequest "GET" (Some "/api/jobs") "/jobs") 1000 (λ _, 1000)
       freshResponse
       (set "GET:/api/jobs" (VString "jobs") None 0 0 fresh))
  = false.
Proof.
  refine (proj1 (hit_serves_cached (mkOptions None None None)
                   (mkRequest "GET" (Some "/api/jobs") "/jobs") 1000
                   (λ _, 1000) 200 VNull
                   (set "GET:/api/jobs" (VString "jobs") None 0 0 fresh)
                   (written fresh (VString "jobs") None 0 0) _ _ _ _)).
  - reflexivity.
  - reflexivity.
  - by vm_compute.
  - discriminate.
Defined.

(** Clearing one key leaves the other. *)
Lemma clearCache_clears_witness :
  cache (clearCache (Key "a")
           (set "b" (VString "v") None 0 0 (set "a" VNull None 0 0 fresh)))
    !! "b"
  = cache (set "b" (VString "v") None 0 0 (set "a" VNull None 0 0 fresh))
      !! "b".
Proof.
  apply (proj1 (proj2 (proj2 (proj2
    (clearCache_clears
       (set "b" (VString "v") None 0 0 (set "a" VNull None 0 0 fresh))
       "a" "b" 0))))).
  discriminate.
Defined.

End cacheMiddlewareSpec.

(** * Properties of request validation *)

Module validateSpec.
Import validate.

Lemma truthy_message (field msg : string) :
  msg ≠ "" → truthy (Some (field +:+ msg)) = true.
Proof.
  intros Hmsg. unfold truthy.
  destruct field as [|c field]; simpl; [|done].
  by destruct msg.
Qed.

Lemma firstError_None validators field value allData :
  firstError validators field value allData = None
  ↔ Forall (falsy field value allData) validators.
Proof.
  induction validators as [|v validators IH]; simpl; [done|].
  rewrite Forall_cons, <- IH. unfold falsy.
  destruct (truthy (v field value allData)) eqn:Htruthy.
  - split; [|by intros [? _]].
    intros Hnone. rewrite Hnone in Htruthy. done.
  - split; [done|by intros [_ ?]].
Qed.

Lemma firstError_Some validators field value allData error :
  firstError validators field value allData = Some error
  ↔ ∃ before validator after,
      validators = before ++ validator :: after
      ∧ Forall (falsy field value allData) before
      ∧ validator field value allData = Some error
      ∧ error ≠ "".
Proof.
  induction validators as [|v validators IH]; simpl.
  { split; [done|]. intros (before & ? & ? & Heq & _). by destruct before. }
  destruct (truthy (v field value allData)) eqn:Htruthy.
  - split.
    + intros Hv. exists [], v, validators. repeat split; [done|done|].
      intros ->. rewrite Hv in Htruthy. done.
    + intros (before & v' & after & Heq & Hbefore & Hv & _).
      destruct before as [|v0 before]; simplify_eq/=; [done|].
      apply Forall_cons in Hbefore as [Hfalsy _]. unfold falsy in Hfalsy.
      congruence.
  - rewrite IH. split.
    + intros (before & v' & after & -> & Hbefore & Hv & Hne).
      exists (v :: before), v', after. repeat split; [|done|done].
      by apply Forall_cons.
    + intros (before & v' & after & Heq & Hbefore & Hv & Hne).
      destruct before as [|v0 before]; simplify_eq/=.
      * rewrite Hv in Htruthy. simpl in Htruthy.
        destruct (String.eqb_spec error ""); done.
      * apply Forall_cons in Hbefore as [_ Hbefore].
        by exists before, v', after.
Qed.

Lemma checkPart_errors part data errors :
  checkPart part data errors = errors ++ omap errorOf (fieldsOf part data).
Proof.
  unfold checkPart, fieldsOf. destruct part as [fields|]; simpl;
    [|by rewrite app_nil_r].
  revert errors. induction fields as [|entry fields IH]; intros errors; simpl.
  { by rewrite app_nil_r. }
  rewrite IH. unfold errorOf at 2. simpl.
  destruct (firstError entry.2 entry.1 (getField data entry.1) data);
    simpl; [by rewrite <- app_assoc|done].
Qed.

Lemma validate_errors rules req :
  validate rules req
  = match omap errorOf (allFields rules req) with
    | [] => next
    | errors => nextError {| message := join ", " errors; statusCode := 400;
                             code := "VALIDATION_ERROR" |}
    end.
Proof.
  unfold validate, allFields. rewrite !checkPart_errors. simpl.
  rewrite !omap_app, <- !app_assoc.
  destruct (omap errorOf (fieldsOf (rules_body rules) (body req))
            ++ omap errorOf (fieldsOf (rules_params rules) (params req))
            ++ omap errorOf (fieldsOf (rules_query rules) (query req)))
    as [|e errors]; [done|].
  rewrite bool_decide_eq_true_2; [done|simpl; lia].
Qed.

(** X25.  The middleware lets a request through exactly when, for every
    field named in the rules, in the body, the parameters and the query,
    every validator of the field returns a falsy result, which is [null]
    or the empty string, on the value of the field; a field that is absent
    is validated as [undefined]. *)
Theorem validate_passes_iff (rules : Rules) (req : Request) :
  validate rules req = next
  ↔ Forall (λ f, Forall (falsy f.1.1 (getField f.2 f.1.1) f.2) f.1.2)
      (allFields rules req).
Proof.
  rewrite validate_errors.
  assert (omap errorOf (allFields rules req) = []
          ↔ Forall (λ f, Forall (falsy f.1.1 (getField f.2 f.1.1) f.2) f.1.2)
              (allFields rules req)) as Hnone.
  { induction (allFields rules req) as [|f fields IH]; simpl; [done|].
    rewrite Forall_cons, <- IH, <- firstError_None. unfold errorOf.
    destruct (firstError f.1.2 f.1.1 (getField f.2 f.1.1) f.2); simpl.
    - split; [done|by intros [? _]].
    - split; [done|by intros [_ ?]]. }
  rewrite <- Hnone.
  by destruct (omap errorOf (allFields rules req)).
Qed.

(** X26.  What the middleware reports.  A request that does not pass is
    handed on with an error of status 400 and code [VALIDATION_ERROR] whose
    message joins, with a comma and a space, one message per failing field:
    the fields in the order body, parameters, query, and for each field the
    message of the first of its validators that complains, the validators
    after it not being consulted.  So there are never more messages than
    fields. *)
Theorem validate_reports (rules : Rules) (req : Request) :
  validate rules req
  = match omap errorOf (allFields rules req) with
    | [] => next
    | errors => nextError {| message := join ", " errors; statusCode := 400;
                             code := "VALIDATION_ERROR" |}
    end
  ∧ (List.length (omap errorOf (allFields rules req))
     ≤ List.length (allFields rules req))%nat
  ∧ ∀ f error,
      f ∈ allFields rules req → errorOf f = Some error →
      ∃ before validator after,
        f.1.2 = before ++ validator :: after
        ∧ Forall (falsy f.1.1 (getField f.2 f.1.1) f.2) before
        ∧ validator f.1.1 (getField f.2 f.1.1) f.2 = Some error
        ∧ error ≠ "".
Proof.
  split; [apply validate_errors|]. split.
  - induction (allFields rules req) as [|f fields IH]; [done|].
    csimpl. destruct (errorOf f); simpl in *; lia.
  - intros f error _ Herror. by apply firstError_Some.
Qed.

(** *** The common rules *)

#[local] Arguments truthy : simpl never.

Ltac settle :=
  repeat first
    [ progress simpl
    | rewrite truthy_message by (simpl; discriminate)
    | case_bool_decide ].

(** X27.  [commonRules.string(min, max)] accepts exactly the non-empty
    strings whose length lies between [min] and [max], bounds included
    (1 and 1000 when not given).  [undefined], [null] and the empty string
    are reported as required, every other value that is not a string as
    not being a string. *)
Theorem string_rule (min max : option Z) (field : string)
    (value allData : JsValue) :
  (passes (commonRules.string min max) field value allData
   ↔ ∃ s, value = VString s ∧ s ≠ ""
          ∧ default 1 min ≤ Z.of_nat (String.length s) ≤ default 1000 max)
  ∧ (isPresent value = false →
     firstError (commonRules.string min max) field value allData
     = Some (field +:+ " is required"))
  ∧ (isPresent value = true → typeOf value ≠ "string" →
     firstError (commonRules.string min max) field value allData
     = Some (field +:+ " must be a string")).
Proof.
  unfold passes, commonRules.string, firstError.
  unfold validators.required, validators.isString, validators.length.
  split; [|split].
  - destruct value as [| |b|n|s|items|fields];
      try (settle; split; [done|by intros (? & ? & _)]).
    destruct s as [|c s]; settle;
      try (split; [done|]; intros (s' & [= <-] & Hne & Hlen);
           simpl in *; (done || lia)).
    split; [|done]. intros _. exists (String c s).
    split; [done|]. split; [done|]. simpl. lia.
  - destruct value as [| |b|n|s|items|fields]; try destruct s as [|c s];
      settle; done.
  - destruct value as [| |b|n|s|items|fields]; try destruct s as [|c s];
      settle; done.
Qed.

(** X28.  [commonRules.optionalString(min, max)] accepts [undefined], the
    empty string whatever [min] is, and the non-empty strings whose length
    lies between [min] and [max] (0 and 1000 when not given), and nothing
    else; [null] in particular is reported as not being a string. *)
Theorem optional_string_rule (min max : option Z) (field : string)
    (value allData : JsValue) :
  (passes (commonRules.optionalString min max) field value allData
   ↔ value = VUndefined ∨ value = VString ""
     ∨ ∃ s, value = VString s ∧ s ≠ ""
            ∧ default 0 min ≤ Z.of_nat (String.length s) ≤ default 1000 max)
  ∧ firstError (commonRules.optionalString min max) field VNull allData
    = Some (field +:+ " must be a string").
Proof.
  unfold passes, commonRules.optionalString, firstError.
  unfold validators.optional, validators.isString, validators.length.
  split; [|by settle].
  destruct value as [| |b|n|s|items|fields]; try destruct s as [|c s];
    settle;
    try (split; [done|]; intros [?|[?|(s' & ? & Hne & Hlen)]];
         simplify_eq/=; (done || lia)).
  - split; [|done]. by left.
  - split; [|done]. intros _. right. by left.
  - split; [|done]. intros _. right. right. exists (String c s).
    split; [done|]. split; [done|]. simpl. lia.
Qed.

(** X29.  The type rules.  [commonRules.boolean] accepts exactly the two
    booleans ([false] is not taken for a missing value), and
    [commonRules.array(min, max)] exactly the arrays whose number of items
    respects the bounds that are given; the optional variants accept
    [undefined] in addition, and not [null]. *)
Theorem boolean_and_array_rules (min max : option Z) (field : string)
    (value allData : JsValue) :
  (passes commonRules.boolean field value allData ↔ ∃ b, value = VBool b)
  ∧ (passes commonRules.optionalBoolean field value allData
     ↔ value = VUndefined ∨ ∃ b, value = VBool b)
  ∧ (passes (commonRules.array min max) field value allData
     ↔ ∃ items, value = VArray items
                ∧ (∀ lo, min = Some lo → lo ≤ Z.of_nat (List.length items))
                ∧ (∀ hi, max = Some hi → Z.of_nat (List.length items) ≤ hi))
  ∧ (passes (commonRules.optionalArray min max) field value allData
     ↔ value = VUndefined
       ∨ ∃ items, value = VArray items
                  ∧ (∀ lo, min = Some lo → lo ≤ Z.of_nat (List.length items))
                  ∧ (∀ hi, max = Some hi →
                       Z.of_nat (List.length items) ≤ hi)).
Proof.
  unfold passes, commonRules.boolean, commonRules.optionalBoolean,
    commonRules.array, commonRules.optionalArray, firstError.
  unfold validators.required, validators.optional, validators.isBoolean,
    validators.isArray, validators.arrayLength.
  split; [|split; [|split]].
  - destruct value as [| |b|n|s|items|fields]; try destruct s as [|c s];
      settle; try (split; [done|by intros [? ?]]).
    split; [|done]. intros _. by exists b.
  - destruct value as [| |b|n|s|items|fields]; settle;
      try (split; [done|by intros [?|[? ?]]]).
    + split; [|done]. by left.
    + split; [|done]. intros _. right. by exists b.
  - destruct value as [| |b|n|s|items|fields]; try destruct s as [|c s];
      try (settle; split; [done|by intros (? & ? & _)]).
    destruct min as [lo|], max as [hi|]; settle;
      try (split; [done|]; intros (items' & [= <-] & Hlo & Hhi);
           try specialize (Hlo _ eq_refl); try specialize (Hhi _ eq_refl);
           lia);
      (split; [|done]); intros _; exists items;
      (split; [done|]); split; intros ? [= <-]; lia.
  - destruct value as [| |b|n|s|items|fields];
      try (settle; split; [done|]; by intros [?|(? & ? & _)]).
    + settle. split; [|done]. by left.
    + destruct min as [lo|], max as [hi|]; settle;
        try (split; [done|]; intros [?|(items' & [= <-] & Hlo & Hhi)];
             [done|];
             try specialize (Hlo _ eq_refl); try specialize (Hhi _ eq_refl);
             lia);
        (split; [|done]); intros _; right; exists items;
        (split; [done|]); split; intros ? [= <-]; lia.
Qed.

Section formats.
Variables (isValidEmail isValidUrl isValidObjectId : JsValue → bool).

(** X30.  The format rules.  [commonRules.email], [url] and [mongoId]
    accept exactly the values that are present (neither [undefined] nor
    [null] nor the empty string) and that the format check of
    [sanitize.js] accepts; the optional variants accept in addition the
    values that are not present, and apply the format check to all
    others. *)
Theorem format_rules (field : string) (value allData : JsValue) :
  (passes (commonRules.email isValidEmail) field value allData
   ↔ isPresent value = true ∧ isValidEmail value = true)
  ∧ (passes (commonRules.optionalEmail isValidEmail) field value allData
     ↔ isPresent value = false ∨ isValidEmail value = true)
  ∧ (passes (commonRules.url isValidUrl) field value allData
     ↔ isPresent value = true ∧ isValidUrl value = true)
  ∧ (passes (commonRules.optionalUrl isValidUrl) field value allData
     ↔ isPresent value = false ∨ isValidUrl value = true)
  ∧ (passes (commonRules.mongoId isValidObjectId) field value allData
     ↔ isPresent value = true ∧ isValidObjectId value = true)
  ∧ (passes (commonRules.optionalMongoId isValidObjectId) field value allData
     ↔ isPresent value = false ∨ isValidObjectId value = true).
Proof.
  unfold passes, commonRules.email, commonRules.optionalEmail,
    commonRules.url, commonRules.optionalUrl, commonRules.mongoId,
    commonRules.optionalMongoId, firstError.
  unfold validators.required, validators.optional, validators.isEmail,
    validators.isUrl, validators.isMongoId.
  assert (isUndefined value || isNull value || isEmptyString value
          = negb (isPresent value)) as ->.
  { unfold isPresent.
    by destruct (isUndefined value), (isNull value), (isEmptyString value). }
  destruct (isPresent value), (isValidEmail value), (isValidUrl value),
    (isValidObjectId value); settle; intuition congruence.
Qed.
End formats.

(** X13.  [validators.isIn] over a list of strings lets a value pass
    exactly when it is not present or is one of the listed strings; any
    other value is reported with the list of the allowed strings, joined
    by a comma and a space. *)
Theorem isIn_rule (allowedValues : list string) (field : string)
    (value allData : JsValue) :
  (validators.isIn allowedValues field value allData = None
   ↔ isPresent value = false
     ∨ ∃ s, value = VString s ∧ s ∈ allowedValues)
  ∧ (validators.isIn allowedValues field value allData ≠ None →
     validators.isIn allowedValues field value allData
     = Some (field +:+ " must be one of: " +:+ join ", " allowedValues)).
Proof.
  unfold validators.isIn. split.
  - destruct value as [| |b|n|s|items|fields]; try destruct s as [|c s]; simpl;
      try (split; [by left|done]);
      try (split; [done|]; intros [?|(? & ? & _)]; done).
    case_bool_decide as Hin; simpl.
    + split; [|done]. intros _. right. eauto.
    + split; [done|]. intros [?|(s' & [= <-] & ?)]; done.
  - by destruct (isPresent value && _).
Qed.

(** The case of the test suite. *)
Lemma isIn_rule_witness :
  validators.isIn ["option1"; "option2"] "field" (VString "option3") VUndefined
  = Some "field must be one of: option1, option2".
Proof.
  rewrite (proj2 (isIn_rule ["option1"; "option2"] "field"
                    (VString "option3") VUndefined)); [reflexivity|].
  by vm_compute.
Defined.

(** The case of the test suite: a body with a name and without an email,
    for rules that require both. *)
Lemma validate_reports_witness :
  ∃ before validator after,
    commonRules.string (Some 1) (Some 100) = before ++ validator :: after
    ∧ Forall (falsy "name" VUndefined (VObject [])) before
    ∧ validator "name" VUndefined (VObject []) = Some "name is required"
    ∧ "name is required" ≠ "".
Proof.
  apply (proj2 (proj2
    (validate_reports
       {| rules_body := Some [("name", commonRules.string (Some 1) (Some 100))];
          rules_params := None; rules_query := None |}
       {| body := VObject []; params := VObject []; query := VObject [] |}))
    ("name", commonRules.string (Some 1) (Some 100), VObject [])).
  - left.
  - reflexivity.
Defined.

(** A number where a string is required. *)
Lemma string_rule_witness :
  firstError (commonRules.string None None) "name" (VNumber (Int 5))
    VUndefined
  = Some "name must be a string".
Proof.
  apply (proj2 (proj2 (string_rule None None "name" (VNumber (Int 5))
                         VUndefined))).
  - reflexivity.
  - discriminate.
Defined.

End validateSpec.
